(** * recognizer: rectangle deduplication and text normalisation

    A shallow embedding of [recognizer.cpp] (class [Recognizer]):
    [remove_dup], [create_text_areas], [string_processing],
    [normalize_result] and the guards of [get_text].

    - [std::vector<cv::Rect>] is a [list Rect]; an iterator is the index it
      points at, [boxes.end()] is [length boxes], and [boxes.erase(it)] is
      stdpp's [delete] at that index, returning the same index.
    - [int] is [Z]; every [int] addition, subtraction and product is
      followed by [int32], the two's-complement wrap-around of a 32-bit
      register (for rectangles within [in_image_range] nothing wraps).
    - [std::string] is [string]; [std::size_t] positions are [nat], and the
      [size_t] subtractions are computed modulo [2^64] by [size_t_sub].
    - loops that are not bounded by a counter take a [fuel] argument and
      return [None] (or [NoFuel]) when it runs out; the fuel handed to them
      is shown to be enough, so that this is never produced. *)

From Stdlib Require Import ZArith Lia Ascii.
From stdpp Require Import base option list strings.

Local Open Scope Z_scope.

(** ** OpenCV geometry: [cv::Point_<int>], [cv::Rect_<int>] *)

Definition int32 (z : Z) : Z := (z + 2147483648) mod 4294967296 - 2147483648.

Module cv.

Record Point := mkPoint { px : Z; py : Z }.

Record Rect := mkRect { x : Z; y : Z; width : Z; height : Z }.

(** [Rect()] *)
Definition Rect0 : Rect := mkRect 0 0 0 0.

(** [Rect_::tl()] *)
Definition tl (r : Rect) : Point := mkPoint (x r) (y r).

(** [Rect_::br()] *)
Definition br (r : Rect) : Point :=
  mkPoint (int32 (x r + width r)) (int32 (y r + height r)).

(** [Rect_::area()] *)
Definition area (r : Rect) : Z := int32 (width r * height r).

(** [Rect_::contains(pt)]:
    [x <= pt.x && pt.x < x + width && y <= pt.y && pt.y < y + height] *)
Definition contains (r : Rect) (pt : Point) : bool :=
  (x r <=? px pt) && (px pt <? int32 (x r + width r)) &&
  (y r <=? py pt) && (py pt <? int32 (y r + height r)).

(** [operator&(a, b)], through [operator&=]. *)
Definition inter (a b : Rect) : Rect :=
  let x1 := Z.max (x a) (x b) in
  let y1 := Z.max (y a) (y b) in
  let w := int32 (Z.min (int32 (x a + width a)) (int32 (x b + width b)) - x1) in
  let h := int32 (Z.min (int32 (y a + height a)) (int32 (y b + height b)) - y1) in
  if (w <=? 0) || (h <=? 0) then Rect0 else mkRect x1 y1 w h.

End cv.

Export cv.

Abbreviation BoxesGroups := (list Rect).

(** ** [Recognizer::remove_dup] *)

(** The test of the first pass: [a->contains(b->tl()) && a->contains(b->br())]. *)
Definition contains_rect (a b : Rect) : bool :=
  contains a (tl b) && contains a (br b).

(** The test of the second pass: the area of [inner & outer] is not [0]. *)
Definition overlaps (inner outer : Rect) : bool :=
  negb (area (inter inner outer) =? 0).

(** Inner loop of the first pass.  It leaves either at [boxes.end()] or by
    [break], and hands back the vector with the value of [outer]. *)
Fixpoint contain_inner (fuel : nat) (boxes : BoxesGroups) (outer inner : nat)
  : option (BoxesGroups * nat) :=
  match fuel with
  | O => None
  | S fuel' =>
      if decide (inner = length boxes) then Some (boxes, outer)
      else
        match boxes !! outer, boxes !! inner with
        | Some o, Some i =>
            if contains_rect o i then
              (* inner = boxes.erase(inner); continue; *)
              contain_inner fuel' (delete inner boxes) outer inner
            else if contains_rect i o then
              (* outer = boxes.erase(outer); break; *)
              Some (delete outer boxes, outer)
            else
              (* ++inner *)
              contain_inner fuel' boxes outer (S inner)
        | _, _ => None
        end
  end.

(** Outer loop of the first pass: [for (; outer != boxes.end(); ++outer)].
    The [++outer] of the loop header runs after the inner loop whichever way
    it was left. *)
Fixpoint contain_outer (fuel : nat) (boxes : BoxesGroups) (outer : nat)
  : option BoxesGroups :=
  match fuel with
  | O => None
  | S fuel' =>
      if decide (outer = length boxes) then Some boxes
      else
        match contain_inner (S (length boxes)) boxes outer (S outer) with
        | Some (boxes', outer') => contain_outer fuel' boxes' (S outer')
        | None => None
        end
  end.

Definition containment_pass (boxes : BoxesGroups) : option BoxesGroups :=
  contain_outer (S (length boxes)) boxes 0.

(** Inner loop of the second pass. *)
Fixpoint overlap_inner (fuel : nat) (boxes : BoxesGroups)
    (outer_iter inner_iter : nat) : option (BoxesGroups * nat) :=
  match fuel with
  | O => None
  | S fuel' =>
      if decide (inner_iter = length boxes) then Some (boxes, outer_iter)
      else
        match boxes !! outer_iter, boxes !! inner_iter with
        | Some o, Some i =>
            if overlaps i o then
              if area o >? area i then
                (* inner_iter = boxes.erase(inner_iter); continue; *)
                overlap_inner fuel' (delete inner_iter boxes) outer_iter inner_iter
              else
                (* outer_iter = boxes.erase(outer_iter);
                   inner_iter = outer_iter; ++inner_iter; continue; *)
                overlap_inner fuel' (delete outer_iter boxes)
                              outer_iter (S outer_iter)
            else
              (* ++inner_iter *)
              overlap_inner fuel' boxes outer_iter (S inner_iter)
        | _, _ => None
        end
  end.

Definition overlap_fuel (boxes : BoxesGroups) : nat :=
  S (length boxes * S (length boxes)).

(** Outer loop of the second pass: [for (; outer_iter != boxes.end(); )]
    with [++outer_iter] at the end of the body. *)
Fixpoint overlap_outer (fuel : nat) (boxes : BoxesGroups) (outer_iter : nat)
  : option BoxesGroups :=
  match fuel with
  | O => None
  | S fuel' =>
      if decide (outer_iter = length boxes) then Some boxes
      else
        match overlap_inner (overlap_fuel boxes) boxes outer_iter (S outer_iter) with
        | Some (boxes', outer_iter') => overlap_outer fuel' boxes' (S outer_iter')
        | None => None
        end
  end.

Definition overlap_pass (boxes : BoxesGroups) : option BoxesGroups :=
  overlap_outer (S (length boxes)) boxes 0.

(** Both passes with their fuel. *)
Definition remove_dup_fuel (boxes : BoxesGroups) : option BoxesGroups :=
  containment_pass boxes ≫= overlap_pass.

(** [remove_dup]: the vector left in [boxes].  The default is never used,
    see [remove_dup_fuel_total]. *)
Definition remove_dup (boxes : BoxesGroups) : BoxesGroups :=
  default boxes (remove_dup_fuel boxes).

(** ** Strings *)

Local Open Scope string_scope.

(** The exceptions that can leave the functions modelled here, with their
    [what()] message. *)
Inductive exn : Type :=
| RecException (what : string)
| out_of_range (what : string).

(** What a function of the model hands back: a value, an exception, or
    [NoFuel] for a loop cut short by its fuel. *)
Inductive res (A : Type) : Type :=
| Ret (a : A)
| Throw (e : exn)
| NoFuel.
Arguments Ret {A} a.
Arguments Throw {A} e.
Arguments NoFuel {A}.

Definition res_bind {A B} (m : res A) (k : A → res B) : res B :=
  match m with
  | Ret a => k a
  | Throw e => Throw e
  | NoFuel => NoFuel
  end.

Notation "x ←r m ; k" := (res_bind m (fun x => k))
  (at level 20, m at level 100, k at level 200, only parsing).

(** The line feed ['\n']. *)
Definition LF : ascii := "010"%char.

(** The value of a [char] in a comparison ([char] is signed here; with an
    unsigned [char] the tests below select the same characters). *)
Definition char_val (c : ascii) : Z :=
  let n := Z.of_N (N_of_ascii c) in
  (if n <? 128 then n else n - 256)%Z.

(** [str[idx]]; at [idx = length] a [std::string] holds ['\0']. *)
Definition char_at (str : string) (idx : nat) : ascii :=
  default "000"%char (String.get idx str).

(** [str.push_back(c)] *)
Definition push_back (str : string) (c : ascii) : string :=
  str +:+ String c "".

Definition in_range (lo hi c : ascii) : bool :=
  (char_val lo <=? char_val c)%Z && (char_val c <=? char_val hi)%Z.

(** The first test of [string_processing]: letters, digits, space and
    [, . ! ?]. *)
Definition allowed (c : ascii) : bool :=
  in_range "a" "z" c || in_range "A" "Z" c || in_range "0" "9" c ||
  Ascii.eqb c " " || Ascii.eqb c "," || Ascii.eqb c "." ||
  Ascii.eqb c "!" || Ascii.eqb c "?".

(** The test on a line feed at [idx]: neither first nor last, and no line
    feed next to it in [str]. *)
Definition keep_newline (str : string) (len idx : nat) : bool :=
  negb (idx =? 0)%nat && negb (idx =? len - 1)%nat &&
  negb (Ascii.eqb (char_at str (idx - 1)) LF) &&
  negb (Ascii.eqb (char_at str (idx + 1)) LF).

(** Body of the first loop of [string_processing]. *)
Definition filter_step (str : string) (len : nat) (norm1 : string) (idx : nat)
  : string :=
  let c := char_at str idx in
  if allowed c then push_back norm1 c
  else if Ascii.eqb c LF then
    if keep_newline str len idx then push_back norm1 c else norm1
  else norm1.

(** Body of the second loop ("Remove extra spaces"). *)
Definition space_step (norm1 : string) (len : nat) (norm2 : string) (idx : nat)
  : string :=
  if Ascii.eqb (char_at norm1 idx) " " then
    if negb (idx =? 0)%nat && negb (idx =? len - 1)%nat &&
       negb (Ascii.eqb (char_at norm1 (idx - 1)) " ")
    then push_back norm2 " " else norm2
  else push_back norm2 (char_at norm1 idx).

(** The two [for (idx = 0; idx < len; ++idx)] loops. *)
Definition filter_chars (str : string) : string :=
  let len := String.length str in
  foldl (filter_step str len) "" (seq 0 len).

Definition remove_extra_spaces (norm1 : string) : string :=
  let len := String.length norm1 in
  foldl (space_step norm1 len) "" (seq 0 len).

(** [Recognizer::string_processing] *)
Definition string_processing (str : string) : string :=
  remove_extra_spaces (filter_chars str).

(** ** [Recognizer::normalize_result] *)

(** [a - b] on [std::size_t] (64 bits). *)
Definition size_t_sub (a b : nat) : N :=
  ((N.of_nat a + 18446744073709551616 - N.of_nat b) mod 18446744073709551616)%N.

(** [str.find(ch, pos)]; [None] is [std::string::npos]. *)
Fixpoint find (str : string) (ch : ascii) (pos : nat) : option nat :=
  match str with
  | EmptyString => None
  | String c rest =>
      match pos with
      | O => if Ascii.eqb c ch then Some O else S <$> find rest ch O
      | S pos' => S <$> find rest ch pos'
      end
  end.

(** [str.substr(pos, count)]: throws when [pos > size()], otherwise the
    characters from [pos] on, [count] of them at most. *)
Definition substr (str : string) (pos : nat) (count : N) : res string :=
  if decide (pos ≤ String.length str)%nat then
    Ret (String.substring pos
           (N.to_nat (N.min count (N.of_nat (String.length str - pos)))) str)
  else Throw (out_of_range "basic_string::substr").

(** [for (s : text) str.append(s).append(1, ' ')] *)
Definition append_all (text : list string) : string :=
  foldl (fun str s => str +:+ s +:+ " ") "" text.

(** The [do ... while (start < str.length())] loop. *)
Fixpoint split_words (fuel : nat) (str : string) (words : list string)
    (start : nat) : res (list string) :=
  match fuel with
  | O => NoFuel
  | S fuel' =>
      let end_ := default (String.length str) (find str " " start) in
      tmp ←r substr str start (size_t_sub end_ start);
      let words := if bool_decide (tmp ∈ words) then words else (words ++ [tmp])%list in
      let start := (end_ + 1)%nat in
      if decide (start < String.length str)%nat
      then split_words fuel' str words start
      else Ret words
  end.

Definition normalize_result (text : list string) : res string :=
  let str := append_all text in
  words ←r split_words (S (String.length str)) str [] 0;
  let str := append_all words in
  substr str 0 (size_t_sub (String.length str) 2).

(** ** The pipeline: [create_text_areas], [alphabet_analisis], [get_text] *)

(** The stages of [get_text], logged in the order they are entered. *)
Inductive stage : Type :=
| Imread
| FindTextRects
| RemoveDup
| CreateTextAreas
| AlphabetAnalisis.

(** A computation with the log of the stages it entered. *)
Definition traced (A : Type) : Type := list stage * res A.

Definition enter {A} (st : stage) (r : res A) : traced A := ([st], r).

Definition traced_bind {A B} (m : traced A) (k : A → traced B) : traced B :=
  match m with
  | (log, Ret a) => let '(log', r) := k a in ((log ++ log')%list, r)
  | (log, Throw e) => (log, Throw e)
  | (log, NoFuel) => (log, NoFuel)
  end.

Notation "x ←t m ; k" := (traced_bind m (fun x => k))
  (at level 20, m at level 100, k at level 200, only parsing).

Section Pipeline.

(** [cv::Mat] and the library calls made on it. *)
Context {Mat : Type}.
(** [image.empty()] *)
Variable empty : Mat → bool.
(** [image.size().area()] *)
Variable size_area : Mat → Z.
(** [cv::cvtColor(src, gray, CV_RGB2GRAY, 0)] *)
Variable cvtColor_RGB2GRAY : Mat → Mat.
(** [cv::Mat(image, r)] *)
Variable roi : Mat → Rect → Mat.
(** [cv::threshold(gray, bw, 127.5f, max_channel_, cv::THRESH_OTSU)] *)
Variable threshold_OTSU : Mat → Mat.
(** [cv::imread(file)] *)
Variable imread : string → Mat.
(** [find_text_rects]: the N&M detector of OpenCV's text module. *)
Variable find_text_rects : Mat → res BoxesGroups.
(** [ocr->Init(nullptr, "eng", OEM_DEFAULT)] returned non-zero. *)
Variable ocr_Init_failed : bool.
(** [ocr->Recognize(0)] on an area: [Some raw] when it returned [0], with
    [raw] the text of [ocr->GetUTF8Text()]. *)
Variable ocr_Recognize : Mat → option string.

(** [int sum_area = 0; for (r : boxes) sum_area += r.area();] *)
Definition sum_area (boxes : BoxesGroups) : Z :=
  foldl (fun sum r => int32 (sum + area r)) 0%Z boxes.

(** [Recognizer::create_text_areas]; [/] on [int] truncates. *)
Definition create_text_areas (image : Mat) (boxes : BoxesGroups) : list Mat :=
  if (sum_area boxes >=? size_area image ÷ 2)%Z then
    [cvtColor_RGB2GRAY image]
  else
    (fun r => threshold_OTSU (cvtColor_RGB2GRAY (roi image r))) <$> boxes.

(** [Recognizer::alphabet_analisis] *)
Definition alphabet_analisis (areas : list Mat) : res string :=
  if ocr_Init_failed then
    Throw (RecException "could not initialize tesseract ocr")
  else
    let rec_text :=
      foldl (fun rec_text area =>
               match ocr_Recognize area with
               | Some raw =>
                   let res := string_processing raw in
                   if decide (res = "") then rec_text
                   else (rec_text ++ [res])%list
               | None => rec_text
               end) [] areas in
    Ret (append_all rec_text).

(** [Recognizer::get_text(const cv::Mat&)] *)
Definition get_text_image (image : Mat) : traced string :=
  if empty image then
    ([], Throw (RecException "failed to load image"))
  else
    boxes_groups ←t enter FindTextRects (find_text_rects image);
    if decide (length boxes_groups = 0)%nat then ([], Ret "")
    else
      boxes_groups ←t enter RemoveDup (Ret (remove_dup boxes_groups));
      text_areas ←t enter CreateTextAreas
                      (Ret (create_text_areas image boxes_groups));
      enter AlphabetAnalisis (alphabet_analisis text_areas).

(** [Recognizer::get_text(const std::string&)] *)
Definition get_text_file (file : string) : traced string :=
  if decide (file = "") then
    ([], Throw (RecException "bad file name"))
  else
    image ←t enter Imread (Ret (imread file));
    get_text_image image.

End Pipeline.

(** ** The channels of [find_text_rects] *)

Section Channels.

Context {Mat : Type}.
(** [max_channel_ - m], the inverse of a channel. *)
Variable invert : Mat → Mat.

(** [for (c = 0; c < cn - 1; ++c) channels.push_back(max_channel_ - channels[c])]
    with [n] the iterations still to run; [None] when [channels[c]] is read
    outside of the vector. *)
Fixpoint push_inverted (n c : nat) (channels : list Mat) : option (list Mat) :=
  match n with
  | O => Some channels
  | S n' =>
      match channels !! c with
      | Some m => push_inverted n' (S c) (channels ++ [invert m])
      | None => None
      end
  end.

(** The channels handed to the filters, from those of [computeNMChannels]:
    [cn = channels.size()], and the bound [cn - 1] is a [size_t]. *)
Definition add_inverted_channels (channels : list Mat) : option (list Mat) :=
  let cn := length channels in
  push_inverted (N.to_nat (size_t_sub cn 1)) 0 channels.

End Channels.

(** ** The two loops of [string_processing] as tests on positions *)

(** The first loop appends [str[idx]] exactly when this holds. *)
Definition kept_by_filter (str : string) (idx : nat) : bool :=
  allowed (char_at str idx) ||
  (Ascii.eqb (char_at str idx) LF && keep_newline str (String.length str) idx).

(** The second loop appends [norm1[idx]] exactly when this holds. *)
Definition kept_by_spaces (norm1 : string) (idx : nat) : bool :=
  negb (Ascii.eqb (char_at norm1 idx) " ") ||
  (negb (idx =? 0)%nat && negb (idx =? String.length norm1 - 1)%nat &&
   negb (Ascii.eqb (char_at norm1 (idx - 1)) " ")).

(** The characters of [str] at the positions that pass [keep]. *)
Definition select (keep : nat → bool) (str : string) : string :=
  String.string_of_list_ascii
    (char_at str <$> List.filter keep (seq 0 (String.length str))).

(** ** Properties of a filtered text and of a raw text *)

Definition no_adjacent_newlines (str : string) : Prop :=
  ∀ k, ¬ (char_at str k = LF ∧ char_at str (S k) = LF).

Definition no_newline_at_ends (str : string) : Prop :=
  char_at str 0 ≠ LF ∧ char_at str (String.length str - 1) ≠ LF.

(** A raw text in which every character is one of the allowed set or a line
    feed. *)
Definition only_allowed_or_newline (str : string) : Prop :=
  ∀ idx, (idx < String.length str)%nat →
         allowed (char_at str idx) = true ∨ char_at str idx = LF.

(** A raw text in which no line feed has a space right before or after it. *)
Definition no_space_by_newline (str : string) : Prop :=
  ∀ idx, char_at str idx = LF →
         char_at str (S idx) ≠ " "%char ∧
         ∀ idx', idx = S idx' → char_at str idx' ≠ " "%char.

(** ** Invariants of the loops of [remove_dup] *)

(** No rectangle in one of the first [k] slots overlaps one in a later
    slot. *)
Definition settled_upto (boxes : BoxesGroups) (k : nat) : Prop :=
  ∀ i j a b, (i < k)%nat → (i < j)%nat →
             boxes !! i = Some a → boxes !! j = Some b → overlaps b a = false.

(** The rectangle in slot [outer] overlaps none of those in the slots
    between [outer] and [inner]. *)
Definition scanned (boxes : BoxesGroups) (outer inner : nat) : Prop :=
  ∀ j a b, (outer < j < inner)%nat →
           boxes !! outer = Some a → boxes !! j = Some b → overlaps b a = false.

(** ** Inputs and instances used in the statements below *)

(** A rectangle with coordinates in the range of an image: nothing computed
    from it overflows an [int]. *)
Definition in_image_range (r : Rect) : Prop :=
  (0 ≤ x r ∧ 0 ≤ y r ∧ 0 ≤ width r ∧ 0 ≤ height r ∧
   x r + width r < 2147483648 ∧ y r + height r < 2147483648 ∧
   width r * height r < 2147483648)%Z.

(** Images as terms: a decoded image of a given size, and the library calls
    applied to it. *)
Inductive SymMat : Type :=
| Decoded (cols rows : Z)
| Gray (m : SymMat)
| Roi (m : SymMat) (r : Rect)
| Otsu (m : SymMat).

Fixpoint sym_size_area (m : SymMat) : Z :=
  match m with
  | Decoded cols rows => int32 (cols * rows)
  | Gray m => sym_size_area m
  | Roi _ r => area r
  | Otsu m => sym_size_area m
  end.

Definition sym_empty (m : SymMat) : bool := (sym_size_area m =? 0)%Z.

Definition sym_imread (file : string) : SymMat :=
  if decide (file = "blank.png") then Decoded 0 0 else Decoded 4 4.

Definition no_rects (image : SymMat) : res BoxesGroups := Ret [].

Definition no_text (area : SymMat) : option string := None.

(** A detector that finds two rectangles, and a recognizer that reads a
    text on a grayscale image and fails on any other. *)
Definition two_rects (image : SymMat) : res BoxesGroups :=
  Ret [mkRect 0 0 2 2; mkRect 5 5 1 1].

Definition reads_gray (area : SymMat) : option string :=
  match area with
  | Gray _ => Some "  Hi,  you## "
  | _ => None
  end.


(** The sum of the areas, on unbounded integers. *)
Definition total_area (boxes : BoxesGroups) : Z :=
  foldr (fun r sum => width r * height r + sum)%Z 0%Z boxes.

(** Three rectangles: [smallA] and [smallC] lie inside [bigB], [pointC] is a
    rectangle of width and height [0] inside [bigB]. *)
Definition smallA : Rect := mkRect 1 1 1 1.
Definition bigB : Rect := mkRect 0 0 10 10.
Definition smallC : Rect := mkRect 2 2 1 1.
Definition pointC : Rect := mkRect 2 2 0 0.

(** Raw texts with line feeds: [a LF # LF b], [# LF a], [a LF #] and
    [ab LF cd]. *)
Definition raw_mid : string := "a" +:+ String LF ("#" +:+ String LF "b").
Definition raw_head : string := "#" +:+ String LF "a".
Definition raw_tail : string := "a" +:+ String LF "#".
Definition raw_clean : string := "ab" +:+ String LF "cd".

(** Two squares of area [4] that share a unit square. *)
Definition tieA : Rect := mkRect 0 0 2 2.
Definition tieB : Rect := mkRect 1 1 2 2.

(** A square away from all the rectangles above. *)
Definition farA : Rect := mkRect 20 20 3 3.

(** ** Termination of [remove_dup] *)

Local Open Scope nat_scope.

Lemma contain_inner_total fuel : ∀ (boxes : BoxesGroups) outer inner,
  outer < inner → inner ≤ length boxes → length boxes - inner < fuel →
  ∃ boxes', contain_inner fuel boxes outer inner = Some (boxes', outer) ∧
            outer < length boxes' ∧ length boxes' ≤ length boxes.
Proof.
  induction fuel as [|fuel IH]; intros boxes outer inner Hoi Hi Hf; [lia|].
  simpl. destruct (decide (inner = length boxes)) as [->|Hne].
  { exists boxes. split; [done|lia]. }
  destruct (lookup_lt_is_Some_2 boxes outer) as [o Ho]; [lia|].
  destruct (lookup_lt_is_Some_2 boxes inner) as [i Hin]; [lia|].
  rewrite Ho, Hin.
  destruct (contains_rect o i).
  - destruct (IH (delete inner boxes) outer inner) as (b' & -> & ? & ?);
      rewrite ?length_delete by eauto; try lia.
    exists b'. rewrite length_delete in * by eauto. split; [done|lia].
  - destruct (contains_rect i o).
    + exists (delete outer boxes). rewrite length_delete by eauto.
      split; [done|lia].
    + destruct (IH boxes outer (S inner)) as (b' & -> & ? & ?); try lia.
      exists b'. split; [done|lia].
Qed.

Lemma contain_outer_total fuel : ∀ (boxes : BoxesGroups) outer,
  outer ≤ length boxes → length boxes - outer < fuel →
  ∃ boxes', contain_outer fuel boxes outer = Some boxes' ∧
            length boxes' ≤ length boxes.
Proof.
  induction fuel as [|fuel IH]; intros boxes outer Ho Hf; [lia|].
  cbn [contain_outer]. destruct (decide (outer = length boxes)) as [->|Hne].
  { exists boxes. split; [done|lia]. }
  destruct (contain_inner_total (S (length boxes)) boxes outer (S outer))
    as (b1 & -> & ? & ?); try lia.
  destruct (IH b1 (S outer)) as (b2 & -> & ?); try lia.
  exists b2. split; [done|lia].
Qed.

Lemma overlap_inner_total fuel : ∀ (boxes : BoxesGroups) outer inner,
  outer < inner → inner ≤ length boxes →
  length boxes * length boxes + (length boxes - inner) < fuel →
  ∃ boxes', overlap_inner fuel boxes outer inner = Some (boxes', outer) ∧
            outer < length boxes' ∧ length boxes' ≤ length boxes.
Proof.
  induction fuel as [|fuel IH]; intros boxes outer inner Hoi Hi Hf; [lia|].
  simpl. destruct (decide (inner = length boxes)) as [->|Hne].
  { exists boxes. split; [done|lia]. }
  destruct (lookup_lt_is_Some_2 boxes outer) as [o Ho]; [lia|].
  destruct (lookup_lt_is_Some_2 boxes inner) as [i Hin]; [lia|].
  rewrite Ho, Hin.
  destruct (overlaps i o).
  - destruct (area o >? area i)%Z.
    + destruct (IH (delete inner boxes) outer inner) as (b' & -> & ? & ?);
        rewrite ?length_delete by eauto; try nia.
      exists b'. rewrite length_delete in * by eauto. split; [done|lia].
    + destruct (IH (delete outer boxes) outer (S outer)) as (b' & -> & ? & ?);
        rewrite ?length_delete by eauto; try nia.
      exists b'. rewrite length_delete in * by eauto. split; [done|lia].
  - destruct (IH boxes outer (S inner)) as (b' & -> & ? & ?); try nia.
    exists b'. split; [done|lia].
Qed.

Lemma overlap_outer_total fuel : ∀ (boxes : BoxesGroups) outer,
  outer ≤ length boxes → length boxes - outer < fuel →
  ∃ boxes', overlap_outer fuel boxes outer = Some boxes' ∧
            length boxes' ≤ length boxes.
Proof.
  induction fuel as [|fuel IH]; intros boxes outer Ho Hf; [lia|].
  cbn [overlap_outer]. destruct (decide (outer = length boxes)) as [->|Hne].
  { exists boxes. split; [done|lia]. }
  destruct (overlap_inner_total (overlap_fuel boxes) boxes outer (S outer))
    as (b1 & -> & ? & ?); unfold overlap_fuel; try nia.
  destruct (IH b1 (S outer)) as (b2 & -> & ?); try lia.
  exists b2. split; [done|lia].
Qed.

(** The fuel of [remove_dup_fuel] is enough on every vector: both passes
    run to their end, and [remove_dup] is the vector they leave. *)
Lemma remove_dup_fuel_total (boxes : BoxesGroups) :
  remove_dup_fuel boxes = Some (remove_dup boxes).
Proof.
  unfold remove_dup, remove_dup_fuel, containment_pass.
  destruct (contain_outer_total (S (length boxes)) boxes 0) as (b1 & -> & ?);
    try lia.
  simpl. unfold overlap_pass.
  destruct (overlap_outer_total (S (length b1)) b1 0) as (b2 & -> & ?);
    try lia.
  done.
Qed.

(** ** [int] arithmetic within range *)

Lemma int32_id (z : Z) :
  (-2147483648 ≤ z < 2147483648)%Z → int32 z = z.
Proof. intros H. unfold int32. rewrite Z.mod_small; lia. Qed.

Lemma area_in_range (r : Rect) :
  in_image_range r → area r = (width r * height r)%Z.
Proof.
  intros (?&?&?&?&?&?&?). unfold area. apply int32_id. nia.
Qed.

(** Within range a rectangle that contains another one, its far corner
    included, is strictly larger. *)
Lemma contains_rect_area_lt (a b : Rect) :
  in_image_range a → in_image_range b →
  contains_rect a b = true → (area b < area a)%Z.
Proof.
  intros Ha Hb Hc. rewrite !area_in_range by done.
  destruct Ha as (?&?&?&?&?&?&?), Hb as (?&?&?&?&?&?&?).
  unfold contains_rect, contains, tl, br in Hc. simpl in Hc.
  rewrite !int32_id in Hc by lia.
  rewrite !andb_true_iff, !Z.leb_le, !Z.ltb_lt in Hc.
  nia.
Qed.

(** ** The overlap pass on a tie *)

Lemma overlap_inner_tie_step (boxes : BoxesGroups) outer_iter inner_iter a b fuel :
  boxes !! outer_iter = Some a → boxes !! inner_iter = Some b →
  overlaps b a = true → area a = area b →
  overlap_inner (S fuel) boxes outer_iter inner_iter =
  overlap_inner fuel (delete outer_iter boxes) outer_iter (S outer_iter).
Proof.
  intros Ha Hb Hov Heq. cbn [overlap_inner].
  destruct (decide (inner_iter = length boxes)) as [->|_].
  { apply lookup_lt_Some in Hb. lia. }
  rewrite Ha, Hb, Hov, Heq, Z.gtb_ltb, Z.ltb_irrefl. done.
Qed.

Lemma overlap_pass_tie (a b : Rect) :
  overlaps b a = true → area a = area b → overlap_pass [a; b] = Some [b].
Proof.
  intros Hov Heq. unfold overlap_pass. cbn [length overlap_outer].
  destruct (decide (0 = 2)) as [?|_]; [lia|].
  unfold overlap_fuel. cbn [length Nat.mul Nat.add].
  rewrite (overlap_inner_tie_step [a; b] 0 1 a b) by done.
  reflexivity.
Qed.

Lemma containment_pass_pair_kept (a b : Rect) :
  contains_rect a b = false → contains_rect b a = false →
  containment_pass [a; b] = Some [a; b].
Proof.
  intros Hab Hba. unfold containment_pass. cbn. rewrite Hab, Hba. reflexivity.
Qed.

(** C1 (as the code has it): in the overlap pass, when the outer rectangle A
    and a later rectangle B overlap and have the same area, the test
    [outer->area() > inner->area()] fails, so it is A, the earlier one, that
    is erased, and the inner scan starts again behind the rectangle that
    took A's place.  On the vector [A, B] the pass leaves [B]; so does
    [remove_dup] when both rectangles are within the range of an image. *)
Theorem overlap_tie_removes_first (a b : Rect) :
  overlaps b a = true → area a = area b →
  (∀ (boxes : BoxesGroups) outer_iter inner_iter fuel,
     boxes !! outer_iter = Some a → boxes !! inner_iter = Some b →
     overlap_inner (S fuel) boxes outer_iter inner_iter =
     overlap_inner fuel (delete outer_iter boxes) outer_iter (S outer_iter)) ∧
  overlap_pass [a; b] = Some [b] ∧
  (in_image_range a → in_image_range b → remove_dup [a; b] = [b]).
Proof.
  intros Hov Heq. split; [|split].
  - intros. by apply overlap_inner_tie_step with a b.
  - by apply overlap_pass_tie.
  - intros Ha Hb. unfold remove_dup, remove_dup_fuel.
    rewrite containment_pass_pair_kept.
    + simpl. by rewrite overlap_pass_tie.
    + destruct (contains_rect a b) eqn:E; [|done].
      apply contains_rect_area_lt in E; [lia|done..].
    + destruct (contains_rect b a) eqn:E; [|done].
      apply contains_rect_area_lt in E; [lia|done..].
Qed.

Lemma overlap_tie_removes_first_witness :
  overlaps tieB tieA = true ∧ area tieA = area tieB ∧
  overlap_pass [tieA; tieB] = Some [tieB] ∧ remove_dup [tieA; tieB] = [tieB].
Proof.
  assert (Hov : overlaps tieB tieA = true) by reflexivity.
  assert (Heq : area tieA = area tieB) by reflexivity.
  destruct (overlap_tie_removes_first tieA tieB Hov Heq) as (_ & Hp & Hr).
  split; [exact Hov|]. split; [exact Heq|]. split; [exact Hp|].
  apply Hr; unfold in_image_range; simpl; lia.
Defined.

(** C1, as the claim has it, fails: of two overlapping squares of area 4 the
    first is removed and the second is the one left. *)
Lemma tie_keeps_second_counterexample :
  overlaps tieB tieA = true ∧ area tieA = area tieB ∧
  remove_dup [tieA; tieB] = [tieB] ∧ tieA ∉ remove_dup [tieA; tieB].
Proof.
  split; [reflexivity|]. split; [reflexivity|]. split; [reflexivity|].
  intros H. vm_compute in H. apply list_elem_of_singleton in H. discriminate.
Qed.

(** ** The containment pass after an erased outer rectangle *)

(** When the inner rectangle contains the outer one, the outer one is erased
    and the inner loop is left with [outer] on the slot it was in. *)
Lemma contain_inner_erases_outer (boxes : BoxesGroups) outer inner a b fuel :
  boxes !! outer = Some a → boxes !! inner = Some b →
  contains_rect a b = false → contains_rect b a = true →
  contain_inner (S fuel) boxes outer inner = Some (delete outer boxes, outer).
Proof.
  intros Ha Hb Hab Hba. cbn [contain_inner].
  destruct (decide (inner = length boxes)) as [->|_].
  { apply lookup_lt_Some in Hb. lia. }
  by rewrite Ha, Hb, Hab, Hba.
Qed.

(** The outer loop then goes on with the slot after it. *)
Lemma contain_outer_steps_over (boxes : BoxesGroups) outer a b fuel :
  boxes !! outer = Some a → boxes !! S outer = Some b →
  contains_rect a b = false → contains_rect b a = true →
  contain_outer (S fuel) boxes outer =
  contain_outer fuel (delete outer boxes) (S outer).
Proof.
  intros Ha Hb Hab Hba. cbn [contain_outer].
  destruct (decide (outer = length boxes)) as [->|_].
  { apply lookup_lt_Some in Ha. lia. }
  by rewrite (contain_inner_erases_outer boxes outer (S outer) a b).
Qed.

(** C2 (the code at [smallA; bigB; smallC]): [bigB] contains [smallA], so
    [smallA] is erased and [bigB] moves into slot 0; the inner loop is left
    by [break] and the [++outer] of the loop header moves on to slot 1.
    [bigB] is never the outer element, and [smallC], which it contains,
    is still there after the pass. *)
Theorem containment_pass_skips_slot :
  contains_rect bigB smallA = true ∧ contains_rect bigB smallC = true ∧
  contain_inner 4 [smallA; bigB; smallC] 0 1 = Some ([bigB; smallC], 0) ∧
  (∀ fuel, contain_outer (S fuel) [smallA; bigB; smallC] 0 =
           contain_outer fuel [bigB; smallC] 1) ∧
  containment_pass [smallA; bigB; smallC] = Some [bigB; smallC].
Proof. repeat split; reflexivity. Qed.

(** ** The overlap pass leaves no overlap *)

Lemma settled_upto_delete (boxes : BoxesGroups) (k d : nat) :
  k ≤ d → settled_upto boxes k → settled_upto (delete d boxes) k.
Proof.
  intros Hkd H i j a b Hi Hij Ha Hb.
  rewrite list_lookup_delete_lt in Ha by lia.
  destruct (decide (j < d)).
  - rewrite list_lookup_delete_lt in Hb by lia. by eapply (H i j).
  - rewrite list_lookup_delete_ge in Hb by lia. eapply (H i (S j)); eauto; lia.
Qed.

Lemma overlap_inner_settles fuel : ∀ (boxes : BoxesGroups) outer inner boxes' outer',
  outer < inner → settled_upto boxes outer → scanned boxes outer inner →
  overlap_inner fuel boxes outer inner = Some (boxes', outer') →
  outer' = outer ∧ settled_upto boxes' (S outer).
Proof.
  induction fuel as [|fuel IH];
    intros boxes outer inner boxes' outer' Hoi Hset Hsc H; [done|].
  cbn [overlap_inner] in H.
  destruct (decide (inner = length boxes)) as [->|Hne].
  { injection H as <- <-. split; [done|].
    intros i j a b Hi Hij Ha Hb.
    destruct (decide (i = outer)) as [->|?].
    - apply lookup_lt_Some in Hb as Hj. by eapply (Hsc j).
    - eapply (Hset i j); eauto; lia. }
  destruct (boxes !! outer) as [o|] eqn:Ho; [|done].
  destruct (boxes !! inner) as [i|] eqn:Hi; [|done].
  destruct (overlaps i o) eqn:Hov.
  - destruct (area o >? area i)%Z.
    + apply IH in H; [done|done|by apply settled_upto_delete; [lia|]|].
      intros j a b Hj Ha Hb.
      rewrite list_lookup_delete_lt in Ha, Hb by lia. by eapply (Hsc j).
    + apply IH in H; [done|lia|by apply settled_upto_delete|].
      intros j a b Hj. lia.
  - apply IH in H; [done|lia|done|].
    intros j a b Hj Ha Hb.
    destruct (decide (j = inner)) as [->|?]; [congruence|].
    eapply (Hsc j); eauto; lia.
Qed.

Lemma overlap_outer_settles fuel : ∀ (boxes : BoxesGroups) outer boxes',
  settled_upto boxes outer →
  overlap_outer fuel boxes outer = Some boxes' →
  settled_upto boxes' (length boxes').
Proof.
  induction fuel as [|fuel IH]; intros boxes outer boxes' Hset H; [done|].
  cbn [overlap_outer] in H.
  destruct (decide (outer = length boxes)) as [->|Hne].
  { by injection H as <-. }
  destruct (overlap_inner _ boxes outer (S outer)) as [[b1 o1]|] eqn:E; [|done].
  apply overlap_inner_settles in E as [-> Hb1]; [|lia|done|].
  - by eapply IH.
  - intros j a b Hj. lia.
Qed.

Lemma inter_comm (a b : Rect) : inter a b = inter b a.
Proof.
  unfold inter.
  by rewrite (Z.max_comm (x a)), (Z.max_comm (y a)),
    (Z.min_comm (int32 (x a + width a))),
    (Z.min_comm (int32 (y a + height a))).
Qed.

(** Whatever the input, no two rectangles left by [remove_dup] (in two
    different slots) have an intersection of area other than [0]. *)
Lemma remove_dup_no_overlap (boxes : BoxesGroups) (i j : nat) (a b : Rect) :
  i ≠ j → remove_dup boxes !! i = Some a → remove_dup boxes !! j = Some b →
  area (inter a b) = 0%Z.
Proof.
  intros Hij Ha Hb.
  pose proof (remove_dup_fuel_total boxes) as Hrun.
  unfold remove_dup_fuel in Hrun.
  destruct (containment_pass boxes) as [b1|]; [|done].
  simpl in Hrun. unfold overlap_pass in Hrun.
  apply overlap_outer_settles in Hrun; [|intros ? ? ? ? ?; lia].
  assert (Hov : overlaps a b = false).
  { destruct (decide (i < j)).
    - unfold overlaps. rewrite inter_comm.
      apply (Hrun i j a b); [|lia|done..]. apply lookup_lt_Some in Ha. lia.
    - apply (Hrun j i b a); [|lia|done..]. apply lookup_lt_Some in Hb. lia. }
  unfold overlaps in Hov. apply negb_false_iff in Hov. by apply Z.eqb_eq.
Qed.

(** Within the range of an image, a rectangle of positive width and height
    that is contained in another one overlaps it. *)
Lemma contains_rect_overlaps (a b : Rect) :
  in_image_range a → in_image_range b →
  (0 < width b)%Z → (0 < height b)%Z →
  contains_rect a b = true → overlaps b a = true.
Proof.
  intros Ha Hb Hw Hh Hc.
  destruct Ha as (?&?&?&?&?&?&?), Hb as (?&?&?&?&?&?&?).
  unfold contains_rect, contains, tl, br in Hc. simpl in Hc.
  rewrite !int32_id in Hc by lia.
  rewrite !andb_true_iff, !Z.leb_le, !Z.ltb_lt in Hc.
  unfold overlaps, inter, area.
  rewrite !(int32_id (_ + _)) by lia.
  rewrite Z.min_l, (Z.max_l (x b)), Z.min_l, (Z.max_l (y b)) by lia.
  rewrite !(int32_id (_ - _)) by lia.
  replace (x b + width b - x b)%Z with (width b) by lia.
  replace (y b + height b - y b)%Z with (height b) by lia.
  destruct (Z.leb_spec (width b) 0); [lia|].
  destruct (Z.leb_spec (height b) 0); [lia|].
  simpl. rewrite int32_id by nia.
  apply negb_true_iff, Z.eqb_neq. nia.
Qed.

(** So the only contained rectangles that [remove_dup] can leave are those
    of width or height [0]. *)
Lemma remove_dup_no_containment (boxes : BoxesGroups) (i j : nat) (a b : Rect) :
  i ≠ j → remove_dup boxes !! i = Some a → remove_dup boxes !! j = Some b →
  in_image_range a → in_image_range b →
  (0 < width b)%Z → (0 < height b)%Z →
  contains_rect a b = false.
Proof.
  intros Hij Ha Hb Ra Rb Hw Hh.
  destruct (contains_rect a b) eqn:E; [|done].
  apply contains_rect_overlaps in E; [|done..].
  pose proof (remove_dup_no_overlap boxes j i b a ltac:(congruence) Hb Ha) as H0.
  unfold overlaps in E. rewrite H0 in E. done.
Qed.

(** ** Vectors that [remove_dup] leaves as they are *)

Lemma contain_inner_fixed fuel : ∀ (boxes : BoxesGroups) outer inner,
  (∀ j a b, outer < j → boxes !! outer = Some a → boxes !! j = Some b →
            contains_rect a b = false ∧ contains_rect b a = false) →
  outer < inner → inner ≤ length boxes → length boxes - inner < fuel →
  contain_inner fuel boxes outer inner = Some (boxes, outer).
Proof.
  induction fuel as [|fuel IH]; intros boxes outer inner Hno Hoi Hi Hf; [lia|].
  cbn [contain_inner].
  destruct (decide (inner = length boxes)) as [->|Hne]; [done|].
  destruct (lookup_lt_is_Some_2 boxes outer) as [o Ho]; [lia|].
  destruct (lookup_lt_is_Some_2 boxes inner) as [i Hin]; [lia|].
  rewrite Ho, Hin.
  destruct (Hno inner o i Hoi Ho Hin) as [-> ->].
  apply IH; [done|lia..].
Qed.

Lemma contain_outer_fixed fuel : ∀ (boxes : BoxesGroups) outer,
  (∀ i j a b, i < j → boxes !! i = Some a → boxes !! j = Some b →
              contains_rect a b = false ∧ contains_rect b a = false) →
  outer ≤ length boxes → length boxes - outer < fuel →
  contain_outer fuel boxes outer = Some boxes.
Proof.
  induction fuel as [|fuel IH]; intros boxes outer Hno Ho Hf; [lia|].
  cbn [contain_outer].
  destruct (decide (outer = length boxes)) as [->|Hne]; [done|].
  rewrite contain_inner_fixed; [|by eauto|lia..].
  apply IH; [done|lia..].
Qed.

Lemma overlap_inner_fixed fuel : ∀ (boxes : BoxesGroups) outer inner,
  (∀ j a b, outer < j → boxes !! outer = Some a → boxes !! j = Some b →
            overlaps b a = false) →
  outer < inner → inner ≤ length boxes → length boxes - inner < fuel →
  overlap_inner fuel boxes outer inner = Some (boxes, outer).
Proof.
  induction fuel as [|fuel IH]; intros boxes outer inner Hno Hoi Hi Hf; [lia|].
  cbn [overlap_inner].
  destruct (decide (inner = length boxes)) as [->|Hne]; [done|].
  destruct (lookup_lt_is_Some_2 boxes outer) as [o Ho]; [lia|].
  destruct (lookup_lt_is_Some_2 boxes inner) as [i Hin]; [lia|].
  rewrite Ho, Hin, (Hno inner o i Hoi Ho Hin).
  apply IH; [done|lia..].
Qed.

Lemma overlap_outer_fixed fuel : ∀ (boxes : BoxesGroups) outer,
  (∀ i j a b, i < j → boxes !! i = Some a → boxes !! j = Some b →
              overlaps b a = false) →
  outer ≤ length boxes → length boxes - outer < fuel →
  overlap_outer fuel boxes outer = Some boxes.
Proof.
  induction fuel as [|fuel IH]; intros boxes outer Hno Ho Hf; [lia|].
  cbn [overlap_outer].
  destruct (decide (outer = length boxes)) as [->|Hne]; [done|].
  rewrite overlap_inner_fixed; [|by eauto|lia|lia|unfold overlap_fuel; nia].
  apply IH; [done|lia..].
Qed.

(** A vector with no containment and no overlap between two of its slots is
    left as it is. *)
Lemma remove_dup_fixed (boxes : BoxesGroups) :
  (∀ i j a b, i < j → boxes !! i = Some a → boxes !! j = Some b →
              contains_rect a b = false ∧ contains_rect b a = false) →
  (∀ i j a b, i < j → boxes !! i = Some a → boxes !! j = Some b →
              overlaps b a = false) →
  remove_dup boxes = boxes.
Proof.
  intros Hc Ho. unfold remove_dup, remove_dup_fuel, containment_pass.
  rewrite contain_outer_fixed; [|done|lia..].
  simpl. unfold overlap_pass.
  rewrite overlap_outer_fixed; [done|done|lia..].
Qed.

(** A second run changes nothing when the rectangles left by the first run
    are within the range of an image and have positive width and height. *)
Lemma remove_dup_twice_positive (boxes : BoxesGroups) :
  (∀ r, r ∈ remove_dup boxes →
        in_image_range r ∧ (0 < width r)%Z ∧ (0 < height r)%Z) →
  remove_dup (remove_dup boxes) = remove_dup boxes.
Proof.
  intros Hpos. apply remove_dup_fixed.
  - intros i j a b Hij Ha Hb.
    destruct (Hpos a) as (?&?&?); [by eapply list_elem_of_lookup_2|].
    destruct (Hpos b) as (?&?&?); [by eapply list_elem_of_lookup_2|].
    split.
    + eapply (remove_dup_no_containment boxes i j); eauto; lia.
    + eapply (remove_dup_no_containment boxes j i); eauto; lia.
  - intros i j a b Hij Ha Hb.
    unfold overlaps. apply negb_false_iff, Z.eqb_eq.
    eapply (remove_dup_no_overlap boxes j i); eauto; lia.
Qed.

(** ** [remove_dup] on a rectangle of area 0 *)

(** C3 (the code at [smallA; bigB; pointC]): the output of [remove_dup]
    still holds [pointC], both corners of which lie in [bigB]. *)
Theorem remove_dup_leaves_contained :
  remove_dup [smallA; bigB; pointC] = [bigB; pointC] ∧
  contains_rect bigB pointC = true.
Proof. split; reflexivity. Qed.

(** C4 (the code at [smallA; bigB; pointC]): a second run of [remove_dup]
    removes one more rectangle. *)
Theorem remove_dup_twice_differs :
  remove_dup [smallA; bigB; pointC] = [bigB; pointC] ∧
  remove_dup (remove_dup [smallA; bigB; pointC]) = [bigB] ∧
  remove_dup (remove_dup [smallA; bigB; pointC]) ≠
  remove_dup [smallA; bigB; pointC].
Proof. repeat split; try reflexivity. vm_compute. discriminate. Qed.

(** ** [create_text_areas] *)

Section Coverage.

Context {Mat : Type}.
Variable size_area : Mat → Z.
Variable cvtColor_RGB2GRAY : Mat → Mat.
Variable roi : Mat → Rect → Mat.
Variable threshold_OTSU : Mat → Mat.

(** C9 (as the code has it): the sum of the areas is compared with the
    image area halved by [int] division, which rounds down.  For an image
    of area [n >= 0] the whole image, in grayscale and not binarized, is
    the single region exactly when twice the sum is at least [n - 1]: so
    it is when the sum is half the area or more, and also when the area is
    odd and the sum is half of it rounded down.  Otherwise there is one
    cropped, grayscaled and Otsu-binarized region per rectangle. *)
Theorem create_text_areas_threshold (image : Mat) (boxes : BoxesGroups) :
  (0 ≤ size_area image)%Z →
  ((size_area image ≤ 2 * sum_area boxes + 1)%Z →
   create_text_areas size_area cvtColor_RGB2GRAY roi threshold_OTSU
     image boxes = [cvtColor_RGB2GRAY image]) ∧
  ((2 * sum_area boxes = size_area image)%Z →
   create_text_areas size_area cvtColor_RGB2GRAY roi threshold_OTSU
     image boxes = [cvtColor_RGB2GRAY image]) ∧
  ((2 * sum_area boxes + 1 < size_area image)%Z →
   create_text_areas size_area cvtColor_RGB2GRAY roi threshold_OTSU
     image boxes =
   (fun r => threshold_OTSU (cvtColor_RGB2GRAY (roi image r))) <$> boxes).
Proof.
  intros Hn. unfold create_text_areas.
  assert (Hq : (2 * (size_area image ÷ 2) ≤ size_area image
                < 2 * (size_area image ÷ 2) + 2)%Z).
  { rewrite Z.quot_div_nonneg by lia.
    pose proof (Z.div_mod (size_area image) 2 ltac:(lia)).
    pose proof (Z.mod_pos_bound (size_area image) 2 ltac:(lia)). lia. }
  split; [|split]; intros H.
  - destruct (Z.geb_spec (sum_area boxes) (size_area image ÷ 2)); [done|lia].
  - destruct (Z.geb_spec (sum_area boxes) (size_area image ÷ 2)); [done|lia].
  - destruct (Z.geb_spec (sum_area boxes) (size_area image ÷ 2)); [lia|done].
Qed.

End Coverage.

Lemma create_text_areas_threshold_witness :
  create_text_areas sym_size_area Gray Roi Otsu (Decoded 4 2) [mkRect 0 0 2 2]
  = [Gray (Decoded 4 2)] ∧
  create_text_areas sym_size_area Gray Roi Otsu (Decoded 4 4) [mkRect 0 0 2 2]
  = [Otsu (Gray (Roi (Decoded 4 4) (mkRect 0 0 2 2)))].
Proof.
  split.
  - apply (create_text_areas_threshold sym_size_area Gray Roi Otsu
             (Decoded 4 2) [mkRect 0 0 2 2]); vm_compute; congruence.
  - apply (create_text_areas_threshold sym_size_area Gray Roi Otsu
             (Decoded 4 4) [mkRect 0 0 2 2]); vm_compute; congruence.
Defined.

(** C9, as the claim has it, fails: on a 3 x 3 image with one 2 x 2
    rectangle the sum (4) is less than half the area (4.5), and the result
    is the whole image all the same, not the region of the rectangle. *)
Lemma half_rounds_down_counterexample :
  (2 * sum_area [mkRect 0 0 2 2] < sym_size_area (Decoded 3 3))%Z ∧
  create_text_areas sym_size_area Gray Roi Otsu (Decoded 3 3) [mkRect 0 0 2 2]
  = [Gray (Decoded 3 3)] ∧
  create_text_areas sym_size_area Gray Roi Otsu (Decoded 3 3) [mkRect 0 0 2 2]
  ≠ [Otsu (Gray (Roi (Decoded 3 3) (mkRect 0 0 2 2)))].
Proof. repeat split; vm_compute; congruence. Qed.

(** ** The loops of [string_processing] select positions *)

Lemma string_app_cons (c : ascii) (s1 s2 : string) :
  String c s1 +:+ s2 = String c (s1 +:+ s2).
Proof. reflexivity. Qed.

Lemma string_app_assoc (s1 s2 s3 : string) :
  (s1 +:+ s2) +:+ s3 = s1 +:+ (s2 +:+ s3).
Proof.
  induction s1 as [|c s1 IH]; [done|].
  by rewrite !string_app_cons, IH.
Qed.

Lemma string_app_empty_r (s : string) : s +:+ "" = s.
Proof.
  induction s as [|c s IH]; [done|].
  by rewrite string_app_cons, IH.
Qed.

Lemma foldl_push_back (keep : nat → bool) (f : nat → ascii)
    (step : string → nat → string) :
  (∀ acc idx, step acc idx = if keep idx then push_back acc (f idx) else acc) →
  ∀ idxs acc,
    foldl step acc idxs =
    acc +:+ String.string_of_list_ascii (f <$> List.filter keep idxs).
Proof.
  intros Hstep idxs. induction idxs as [|idx idxs IH]; intros acc; simpl.
  - by rewrite string_app_empty_r.
  - rewrite IH, Hstep. destruct (keep idx); [|done].
    unfold push_back. by rewrite string_app_assoc.
Qed.

Lemma filter_chars_select (str : string) :
  filter_chars str = select (kept_by_filter str) str.
Proof.
  unfold filter_chars, select.
  rewrite (foldl_push_back (kept_by_filter str) (char_at str)); [done|].
  intros acc idx. unfold filter_step, kept_by_filter.
  destruct (allowed (char_at str idx)); [done|].
  destruct (Ascii.eqb (char_at str idx) LF); [|done].
  by destruct (keep_newline str (String.length str) idx).
Qed.

Lemma remove_extra_spaces_select (norm1 : string) :
  remove_extra_spaces norm1 = select (kept_by_spaces norm1) norm1.
Proof.
  unfold remove_extra_spaces, select.
  rewrite (foldl_push_back (kept_by_spaces norm1) (char_at norm1)); [done|].
  intros acc idx. unfold space_step, kept_by_spaces.
  destruct (Ascii.eqb_spec (char_at norm1 idx) " ") as [->|_]; simpl; [|done].
  by destruct (_ && _).
Qed.

Lemma length_string_of_list (l : list ascii) :
  String.length (String.string_of_list_ascii l) = length l.
Proof. induction l as [|c l IH]; simpl; [done|]. by rewrite IH. Qed.

Lemma get_string_of_list (l : list ascii) : ∀ k,
  String.get k (String.string_of_list_ascii l) = l !! k.
Proof. induction l as [|c l IH]; intros [|k]; simpl; auto. Qed.

(** The character at position [k] of a selection is the one of [str] at the
    [k]-th position that passes. *)
Lemma char_at_select (keep : nat → bool) (str : string) (k : nat) :
  char_at (select keep str) k =
  match List.filter keep (seq 0 (String.length str)) !! k with
  | Some idx => char_at str idx
  | None => "000"%char
  end.
Proof.
  unfold select. unfold char_at at 1.
  rewrite get_string_of_list, list_lookup_fmap.
  by destruct (_ !! k).
Qed.

Lemma length_select (keep : nat → bool) (str : string) :
  String.length (select keep str) =
  length (List.filter keep (seq 0 (String.length str))).
Proof. unfold select. by rewrite length_string_of_list, length_fmap. Qed.

(** Positions that pass a test, in increasing order, and the gaps between
    them. *)
Lemma filter_seq_lookup (keep : nat → bool) : ∀ n s k a,
  List.filter keep (seq s n) !! k = Some a →
  s ≤ a < s + n ∧ keep a = true.
Proof.
  induction n as [|n IH]; intros s k a H; simpl in H; [done|].
  destruct (keep s) eqn:Es.
  - destruct k as [|k]; simpl in H.
    + injection H as <-. split; [lia|done].
    + apply IH in H. split; [lia|tauto].
  - apply IH in H. split; [lia|tauto].
Qed.

Lemma filter_seq_head (keep : nat → bool) : ∀ n s a,
  List.filter keep (seq s n) !! 0 = Some a →
  ∀ c, s ≤ c < a → keep c = false.
Proof.
  induction n as [|n IH]; intros s a H c Hc; simpl in H; [done|].
  destruct (keep s) eqn:Es.
  - simpl in H. injection H as <-. lia.
  - destruct (decide (c = s)) as [->|?]; [done|].
    apply (IH (S s) a H). lia.
Qed.

Lemma filter_seq_gap (keep : nat → bool) : ∀ n s k a b,
  List.filter keep (seq s n) !! k = Some a →
  List.filter keep (seq s n) !! S k = Some b →
  a < b ∧ ∀ c, a < c < b → keep c = false.
Proof.
  induction n as [|n IH]; intros s k a b Ha Hb; simpl in Ha, Hb; [done|].
  destruct (keep s) eqn:Es; [|by eapply IH].
  destruct k as [|k]; simpl in Ha, Hb; [|by eapply IH].
  injection Ha as <-. split.
  - apply filter_seq_lookup in Hb. lia.
  - intros c Hc. apply (filter_seq_head keep n (S s) b Hb). lia.
Qed.

Lemma filter_seq_last (keep : nat → bool) : ∀ n s k a,
  List.filter keep (seq s n) !! k = Some a →
  S k = length (List.filter keep (seq s n)) →
  ∀ c, a < c < s + n → keep c = false.
Proof.
  induction n as [|n IH]; intros s k a Ha Hk c Hc; simpl in Ha, Hk; [done|].
  destruct (keep s) eqn:Es.
  - destruct k as [|k]; simpl in Ha, Hk.
    + injection Ha as <-.
      destruct (keep c) eqn:Ec; [|done].
      assert (Hin : c ∈ List.filter keep (seq (S s) n)).
      { apply list_elem_of_In, filter_In. split; [|done].
        apply in_seq. lia. }
      destruct (List.filter keep (seq (S s) n)); [|done].
      by apply elem_of_nil in Hin.
    + apply (IH (S s) k a Ha); [lia|lia].
  - apply (IH (S s) k a Ha Hk). lia.
Qed.

(** ** Line feeds in the output of [string_processing] *)

Lemma select_char (keep : nat → bool) (str : string) (k : nat) (ch : ascii) :
  ch ≠ "000"%char → char_at (select keep str) k = ch →
  ∃ idx, List.filter keep (seq 0 (String.length str)) !! k = Some idx ∧
         char_at str idx = ch.
Proof.
  intros Hch H. rewrite char_at_select in H.
  destruct (_ !! k) as [idx|]; [eauto|congruence].
Qed.

Lemma kept_by_filter_newline (str : string) (idx : nat) :
  kept_by_filter str idx = true → char_at str idx = LF →
  idx ≠ 0 ∧ idx ≠ String.length str - 1 ∧
  char_at str (idx - 1) ≠ LF ∧ char_at str (idx + 1) ≠ LF.
Proof.
  unfold kept_by_filter, keep_newline. intros H E. rewrite E in H.
  simpl in H.
  rewrite !andb_true_iff, !negb_true_iff in H.
  destruct H as (((H1 & H2) & H3) & H4).
  apply Nat.eqb_neq in H1, H2.
  apply Ascii.eqb_neq in H3, H4. done.
Qed.

Lemma not_kept_by_filter (str : string) (idx : nat) :
  only_allowed_or_newline str → idx < String.length str →
  kept_by_filter str idx = false → char_at str idx = LF.
Proof.
  intros Hc Hi H. destruct (Hc idx Hi) as [Ha|]; [|done].
  unfold kept_by_filter in H. by rewrite Ha in H.
Qed.

Lemma not_kept_by_spaces (norm1 : string) (idx : nat) :
  kept_by_spaces norm1 idx = false →
  char_at norm1 idx = " "%char ∧
  (idx = 0 ∨ idx = String.length norm1 - 1 ∨
   char_at norm1 (idx - 1) = " "%char).
Proof.
  unfold kept_by_spaces. intros H.
  apply orb_false_iff in H as [H1 H2].
  apply negb_false_iff, Ascii.eqb_eq in H1. split; [done|].
  destruct (Nat.eqb_spec idx 0); [by left|].
  destruct (Nat.eqb_spec idx (String.length norm1 - 1)); [by right; left|].
  simpl in H2. apply negb_false_iff, Ascii.eqb_eq in H2. by right; right.
Qed.

(** The second loop removes spaces only, and never all the spaces between
    two line feeds. *)
Lemma remove_extra_spaces_no_adjacent (norm1 : string) :
  no_adjacent_newlines norm1 →
  no_adjacent_newlines (remove_extra_spaces norm1).
Proof.
  intros Hn k [H1 H2]. rewrite remove_extra_spaces_select in H1, H2.
  apply select_char in H1 as (a & Ha & Ea); [|done].
  apply select_char in H2 as (b & Hb & Eb); [|done].
  destruct (filter_seq_gap _ _ _ _ _ _ Ha Hb) as [Hab Hgap].
  apply filter_seq_lookup in Hb as [Hb _].
  destruct (decide (b = S a)) as [->|Hne]; [by apply (Hn a)|].
  destruct (not_kept_by_spaces norm1 (S a)) as (_ & [?|[?|Hs]]);
    [apply Hgap; lia|lia|lia|].
  replace (S a - 1) with a in Hs by lia. rewrite Ea in Hs. done.
Qed.

(** When the first loop removes line feeds only, no two line feeds that it
    keeps end up side by side. *)
Lemma filter_chars_no_adjacent (str : string) :
  only_allowed_or_newline str → no_adjacent_newlines (filter_chars str).
Proof.
  intros Hc k [H1 H2]. rewrite filter_chars_select in H1, H2.
  apply select_char in H1 as (a & Ha & Ea); [|done].
  apply select_char in H2 as (b & Hb & Eb); [|done].
  destruct (filter_seq_gap _ _ _ _ _ _ Ha Hb) as [Hab Hgap].
  apply filter_seq_lookup in Ha as [_ Ka].
  apply filter_seq_lookup in Hb as [Hb _].
  destruct (kept_by_filter_newline str a Ka Ea) as (_ & _ & _ & Hnext).
  replace (a + 1) with (S a) in Hnext by lia.
  destruct (decide (b = S a)) as [->|Hne]; [done|].
  apply Hnext, not_kept_by_filter; [done|lia|]. apply Hgap. lia.
Qed.

Lemma string_processing_no_adjacent (str : string) :
  only_allowed_or_newline str → no_adjacent_newlines (string_processing str).
Proof.
  intros Hc. apply remove_extra_spaces_no_adjacent.
  by apply filter_chars_no_adjacent.
Qed.

Lemma string_processing_no_leading_newline (str : string) :
  only_allowed_or_newline str → no_space_by_newline str →
  char_at (string_processing str) 0 ≠ LF.
Proof.
  intros Hc Hs H. unfold string_processing in H.
  rewrite remove_extra_spaces_select in H.
  apply select_char in H as (a & Ha & Ea); [|done].
  pose proof (filter_seq_head _ _ _ _ Ha) as Hhead.
  apply filter_seq_lookup in Ha as [Ha _].
  rewrite filter_chars_select in Ea.
  apply select_char in Ea as (j & Hj & Ej); [|done].
  destruct (filter_seq_lookup _ _ _ _ _ Hj) as [Hjn Kj].
  destruct (kept_by_filter_newline str j Kj Ej) as (Hj0 & _ & Hprev & _).
  destruct a as [|a'].
  - apply Hprev, not_kept_by_filter; [done|lia|].
    apply (filter_seq_head _ _ _ _ Hj). lia.
  - destruct (not_kept_by_spaces (filter_chars str) a') as [Esp _];
      [apply Hhead; lia|].
    rewrite filter_chars_select in Esp.
    apply select_char in Esp as (i & Hi & Ei); [|done].
    destruct (filter_seq_gap _ _ _ _ _ _ Hi Hj) as [Hij Hgap].
    destruct (decide (j = S i)) as [->|Hne].
    + destruct (Hs (S i) Ej) as [_ Hbefore]. by apply (Hbefore i).
    + apply Hprev, not_kept_by_filter; [done|lia|]. apply Hgap. lia.
Qed.

Lemma string_processing_no_trailing_newline (str : string) :
  only_allowed_or_newline str → no_space_by_newline str →
  char_at (string_processing str)
          (String.length (string_processing str) - 1) ≠ LF.
Proof.
  intros Hc Hs H. unfold string_processing in H.
  rewrite remove_extra_spaces_select in H.
  assert (Hlen := length_select (kept_by_spaces (filter_chars str))
                    (filter_chars str)).
  apply select_char in H as (a & Ha & Ea); [|done].
  rewrite Hlen in Ha.
  assert (Hlast : ∀ c, a < c < String.length (filter_chars str) →
                       kept_by_spaces (filter_chars str) c = false).
  { apply lookup_lt_Some in Ha as Hlt.
    intros c Hcr. eapply (filter_seq_last _ _ 0 _ a Ha); lia. }
  apply filter_seq_lookup in Ha as [Ha _].
  assert (Hlen1 := length_select (kept_by_filter str) str).
  rewrite <- filter_chars_select in Hlen1.
  rewrite filter_chars_select in Ea.
  apply select_char in Ea as (j & Hj & Ej); [|done].
  destruct (filter_seq_lookup _ _ _ _ _ Hj) as [Hjn Kj].
  destruct (kept_by_filter_newline str j Kj Ej) as (_ & Hjl & _ & Hnext).
  replace (j + 1) with (S j) in Hnext by lia.
  destruct (decide (S a = String.length (filter_chars str))) as [Hend|Hmid].
  - apply Hnext, not_kept_by_filter; [done|lia|].
    apply (filter_seq_last _ _ 0 _ j Hj); lia.
  - destruct (not_kept_by_spaces (filter_chars str) (S a)) as [Esp _];
      [apply Hlast; lia|].
    rewrite filter_chars_select in Esp.
    apply select_char in Esp as (i & Hi & Ei); [|done].
    destruct (filter_seq_gap _ _ _ _ _ _ Hj Hi) as [Hji Hgap].
    destruct (decide (i = S j)) as [->|Hne].
    + destruct (Hs j Ej) as [Hafter _]. done.
    + apply Hnext, not_kept_by_filter; [done|lia|]. apply Hgap. lia.
Qed.

Lemma kept_by_filter_newline_iff (str : string) (idx : nat) :
  char_at str idx = LF →
  kept_by_filter str idx = true ↔
  idx ≠ 0 ∧ idx ≠ String.length str - 1 ∧
  char_at str (idx - 1) ≠ LF ∧ char_at str (idx + 1) ≠ LF.
Proof.
  intros E. split; [intros H; by apply kept_by_filter_newline|].
  intros (H1 & H2 & H3 & H4). unfold kept_by_filter, keep_newline.
  rewrite E. simpl.
  apply Nat.eqb_neq in H1, H2. apply Ascii.eqb_neq in H3, H4.
  by rewrite H1, H2, H3, H4.
Qed.

Lemma kept_by_spaces_newline (norm1 : string) (idx : nat) :
  char_at norm1 idx = LF → kept_by_spaces norm1 idx = true.
Proof. intros E. unfold kept_by_spaces. by rewrite E. Qed.

(** C5 (as the code has it): the output is the input restricted to the
    positions that pass the two loops, and a line feed at [idx] passes
    exactly when, in the input, it is neither first nor last and neither
    [str[idx - 1]] nor [str[idx + 1]] is a line feed (the second loop drops
    no line feed).  The neighbours are those of the input, before the
    filter: when every character of the input is an allowed one or a line
    feed, no two line feeds are side by side in the output; when moreover
    no line feed of the input has a space next to it, the output neither
    begins nor ends with a line feed. *)
Theorem newline_kept_by_raw_neighbours (str : string) :
  string_processing str =
    select (kept_by_spaces (select (kept_by_filter str) str))
           (select (kept_by_filter str) str) ∧
  (∀ idx, char_at str idx = LF →
     kept_by_filter str idx = true ↔
     idx ≠ 0 ∧ idx ≠ String.length str - 1 ∧
     char_at str (idx - 1) ≠ LF ∧ char_at str (idx + 1) ≠ LF) ∧
  (∀ norm1 idx, char_at norm1 idx = LF → kept_by_spaces norm1 idx = true) ∧
  (only_allowed_or_newline str →
   no_adjacent_newlines (string_processing str)) ∧
  (only_allowed_or_newline str → no_space_by_newline str →
   no_newline_at_ends (string_processing str)).
Proof.
  split; [|split; [|split; [|split]]].
  - unfold string_processing.
    by rewrite remove_extra_spaces_select, filter_chars_select.
  - intros idx. apply kept_by_filter_newline_iff.
  - apply kept_by_spaces_newline.
  - apply string_processing_no_adjacent.
  - intros Hc Hs. split.
    + by apply string_processing_no_leading_newline.
    + by apply string_processing_no_trailing_newline.
Qed.

Lemma newline_kept_by_raw_neighbours_witness :
  only_allowed_or_newline raw_clean ∧ no_space_by_newline raw_clean ∧
  string_processing raw_clean = raw_clean ∧
  no_adjacent_newlines (string_processing raw_clean) ∧
  no_newline_at_ends (string_processing raw_clean).
Proof.
  assert (Hc : only_allowed_or_newline raw_clean).
  { intros idx Hi. simpl in Hi.
    do 5 (destruct idx as [|idx]; [vm_compute; tauto|]). lia. }
  assert (Hs : no_space_by_newline raw_clean).
  { intros idx Hi.
    do 5 (destruct idx as [|idx];
          [first [discriminate Hi
                 |split; [discriminate|intros idx' [= <-]; discriminate]]|]).
    discriminate Hi. }
  destruct (newline_kept_by_raw_neighbours raw_clean) as (_ & _ & _ & Ha & He).
  split; [exact Hc|]. split; [exact Hs|]. split; [reflexivity|].
  split; [exact (Ha Hc)|exact (He Hc Hs)].
Defined.

(** C5, as the claim has it, fails: a character that the filter removes
    between two line feeds, or between a line feed and an end of the
    string, leaves the line feeds side by side, or first, or last. *)
Lemma newline_adjacent_counterexample :
  string_processing raw_mid = "a" +:+ String LF (String LF "b") ∧
  ¬ no_adjacent_newlines (string_processing raw_mid) ∧
  string_processing raw_head = String LF "a" ∧
  char_at (string_processing raw_head) 0 = LF ∧
  string_processing raw_tail = "a" +:+ String LF "" ∧
  char_at (string_processing raw_tail)
          (String.length (string_processing raw_tail) - 1) = LF.
Proof.
  split; [reflexivity|]. split.
  { intros H. apply (H 1). split; reflexivity. }
  repeat split; reflexivity.
Qed.

(** ** [string_processing] on a sample text *)

(** C8: the filter keeps [H3ll0!], drops each of the three line feeds (none
    is isolated), keeps [World??], one of the two spaces, and [foo]. *)
Theorem string_processing_example :
  string_processing
    ("H3ll0!" +:+ String LF (String LF (String LF "World??  foo")))
  = "H3ll0!World?? foo".
Proof. reflexivity. Qed.

(** ** [normalize_result] on a sample text and on empty input *)

(** C6 (the code at "cat dog cat bird dog"): the words kept are [cat],
    [dog], [bird], joined as "cat dog bird " (13 characters);
    [substr(0, length - 2)] then cuts two characters, the space and the
    last letter. *)
Theorem normalize_result_cuts_last_letter :
  normalize_result ["cat dog cat bird dog"] = Ret "cat dog bir" ∧
  normalize_result ["cat"; "dog"; "cat"; "bird"; "dog"] = Ret "cat dog bir" ∧
  split_words 22 "cat dog cat bird dog " [] 0 = Ret ["cat"; "dog"; "bird"] ∧
  append_all ["cat"; "dog"; "bird"] = "cat dog bird ".
Proof. repeat split; reflexivity. Qed.

(** C7 (the code on empty input): the loop runs once and keeps the empty
    word, the joined string is " " of length 1, and [1 - 2] on [size_t] is
    [2^64 - 1], so [substr] hands back the whole string: one space. *)
Theorem normalize_result_empty_is_space :
  normalize_result [] = Ret " " ∧
  normalize_result [""] = Ret " " ∧
  normalize_result ["   "] = Ret " " ∧
  size_t_sub 1 2 = 18446744073709551615%N.
Proof. repeat split; reflexivity. Qed.

(** ** [normalize_result] raises nothing *)

Lemma find_bounds (str : string) (ch : ascii) : ∀ pos e,
  find str ch pos = Some e → pos ≤ e < String.length str.
Proof.
  induction str as [|c rest IH]; intros pos e H; simpl in H; [done|].
  destruct pos as [|pos].
  - destruct (Ascii.eqb c ch).
    + injection H as <-. simpl. lia.
    + destruct (find rest ch 0) as [e'|] eqn:E; [|done].
      injection H as <-. apply IH in E. simpl. lia.
  - destruct (find rest ch pos) as [e'|] eqn:E; [|done].
    injection H as <-. apply IH in E. simpl. lia.
Qed.

Lemma split_words_returns fuel : ∀ str words start,
  start ≤ String.length str → String.length str - start < fuel →
  ∃ words', split_words fuel str words start = Ret words'.
Proof.
  induction fuel as [|fuel IH]; intros str words start Hs Hf; [lia|].
  cbn [split_words]. unfold substr.
  destruct (decide (start ≤ String.length str)) as [_|?]; [|lia].
  cbn [res_bind].
  assert (He : start ≤ default (String.length str) (find str " " start)).
  { destruct (find str " " start) as [e|] eqn:E; simpl; [|lia].
    apply find_bounds in E. lia. }
  destruct (decide (default (String.length str) (find str " " start) + 1
                    < String.length str)); [|eauto].
  apply IH; lia.
Qed.

(** Whatever the fragments, [normalize_result] returns a string: the loop
    ends, and neither call of [substr] is out of range. *)
Lemma normalize_result_returns (text : list string) :
  ∃ str, normalize_result text = Ret str.
Proof.
  unfold normalize_result.
  destruct (split_words_returns (S (String.length (append_all text)))
              (append_all text) [] 0) as [words ->]; [lia..|].
  cbn [res_bind]. unfold substr.
  destruct (decide (0 ≤ String.length (append_all words))); [eauto|lia].
Qed.

(** ** [get_text] *)

Section Guards.

Context {Mat : Type}.
Variable empty : Mat → bool.
Variable size_area : Mat → Z.
Variable cvtColor_RGB2GRAY : Mat → Mat.
Variable roi : Mat → Rect → Mat.
Variable threshold_OTSU : Mat → Mat.
Variable imread : string → Mat.
Variable find_text_rects : Mat → res BoxesGroups.
Variable ocr_Init_failed : bool.
Variable ocr_Recognize : Mat → option string.

(** C10: [get_text] throws a [RecException] on an empty file name, and on
    an empty image (given as such, or as what [imread] made of the file),
    with no stage of the pipeline entered but, for a file, [imread]; and
    when the detector finds no rectangle, [get_text] returns the empty
    string with no stage entered after the detector. *)
Theorem get_text_guards :
  get_text_file empty size_area cvtColor_RGB2GRAY roi threshold_OTSU
    imread find_text_rects ocr_Init_failed ocr_Recognize ""
  = ([], Throw (RecException "bad file name")) ∧
  (∀ image, empty image = true →
     get_text_image empty size_area cvtColor_RGB2GRAY roi threshold_OTSU
       find_text_rects ocr_Init_failed ocr_Recognize image
     = ([], Throw (RecException "failed to load image"))) ∧
  (∀ file, file ≠ "" → empty (imread file) = true →
     get_text_file empty size_area cvtColor_RGB2GRAY roi threshold_OTSU
       imread find_text_rects ocr_Init_failed ocr_Recognize file
     = ([Imread], Throw (RecException "failed to load image"))) ∧
  (∀ image, empty image = false → find_text_rects image = Ret [] →
     get_text_image empty size_area cvtColor_RGB2GRAY roi threshold_OTSU
       find_text_rects ocr_Init_failed ocr_Recognize image
     = ([FindTextRects], Ret "")) ∧
  (∀ file, file ≠ "" → empty (imread file) = false →
     find_text_rects (imread file) = Ret [] →
     get_text_file empty size_area cvtColor_RGB2GRAY roi threshold_OTSU
       imread find_text_rects ocr_Init_failed ocr_Recognize file
     = ([Imread; FindTextRects], Ret "")).
Proof.
  unfold get_text_file, get_text_image.
  split; [done|]. split; [|split; [|split]].
  - intros image ->. done.
  - intros file Hf He. destruct (decide (file = "")); [done|].
    cbn. by rewrite He.
  - intros image -> ->. done.
  - intros file Hf He Hd. destruct (decide (file = "")); [done|].
    cbn. by rewrite He, Hd.
Qed.

End Guards.

Lemma get_text_guards_witness :
  get_text_file sym_empty sym_size_area Gray Roi Otsu
    sym_imread no_rects false no_text "blank.png"
  = ([Imread], Throw (RecException "failed to load image")) ∧
  get_text_file sym_empty sym_size_area Gray Roi Otsu
    sym_imread no_rects false no_text "page.png"
  = ([Imread; FindTextRects], Ret "").
Proof.
  destruct (get_text_guards sym_empty sym_size_area Gray Roi Otsu
              sym_imread no_rects false no_text) as (_ & _ & H3 & _ & H5).
  split.
  - apply H3; [discriminate|reflexivity].
  - apply H5; [discriminate|reflexivity|reflexivity].
Defined.

(** ** [remove_dup]: what every run keeps *)

Lemma contain_inner_sublist fuel : ∀ (boxes : BoxesGroups) outer inner boxes' outer',
  contain_inner fuel boxes outer inner = Some (boxes', outer') →
  boxes' `sublist_of` boxes.
Proof.
  induction fuel as [|fuel IH]; intros boxes outer inner boxes' outer' H; [done|].
  cbn [contain_inner] in H.
  destruct (decide (inner = length boxes)); [by injection H as <- <-|].
  destruct (boxes !! outer) as [o|]; [|done].
  destruct (boxes !! inner) as [i|]; [|done].
  destruct (contains_rect o i).
  - apply IH in H. etrans; [done|apply sublist_delete].
  - destruct (contains_rect i o).
    + injection H as <- <-. apply sublist_delete.
    + by apply IH in H.
Qed.

Lemma contain_outer_sublist fuel : ∀ (boxes : BoxesGroups) outer boxes',
  contain_outer fuel boxes outer = Some boxes' → boxes' `sublist_of` boxes.
Proof.
  induction fuel as [|fuel IH]; intros boxes outer boxes' H; [done|].
  cbn [contain_outer] in H.
  destruct (decide (outer = length boxes)); [by injection H as <-|].
  destruct (contain_inner _ boxes outer (S outer)) as [[b1 o1]|] eqn:E; [|done].
  apply contain_inner_sublist in E. apply IH in H. by etrans.
Qed.

Lemma overlap_inner_sublist fuel : ∀ (boxes : BoxesGroups) outer inner boxes' outer',
  overlap_inner fuel boxes outer inner = Some (boxes', outer') →
  boxes' `sublist_of` boxes.
Proof.
  induction fuel as [|fuel IH]; intros boxes outer inner boxes' outer' H; [done|].
  cbn [overlap_inner] in H.
  destruct (decide (inner = length boxes)); [by injection H as <- <-|].
  destruct (boxes !! outer) as [o|]; [|done].
  destruct (boxes !! inner) as [i|]; [|done].
  destruct (overlaps i o).
  - destruct (area o >? area i)%Z;
      apply IH in H; (etrans; [done|apply sublist_delete]).
  - by apply IH in H.
Qed.

Lemma overlap_outer_sublist fuel : ∀ (boxes : BoxesGroups) outer boxes',
  overlap_outer fuel boxes outer = Some boxes' → boxes' `sublist_of` boxes.
Proof.
  induction fuel as [|fuel IH]; intros boxes outer boxes' H; [done|].
  cbn [overlap_outer] in H.
  destruct (decide (outer = length boxes)); [by injection H as <-|].
  destruct (overlap_inner _ boxes outer (S outer)) as [[b1 o1]|] eqn:E; [|done].
  apply overlap_inner_sublist in E. apply IH in H. by etrans.
Qed.

Lemma contain_outer_nonempty fuel : ∀ (boxes : BoxesGroups) outer boxes',
  outer ≤ length boxes → 0 < length boxes →
  contain_outer fuel boxes outer = Some boxes' → 0 < length boxes'.
Proof.
  induction fuel as [|fuel IH]; intros boxes outer boxes' Ho Hpos H; [done|].
  cbn [contain_outer] in H.
  destruct (decide (outer = length boxes)); [by injection H as <-|].
  destruct (contain_inner_total (S (length boxes)) boxes outer (S outer))
    as (b1 & E & ? & ?); [lia..|].
  rewrite E in H. apply IH in H; [done|lia..].
Qed.

Lemma overlap_outer_nonempty fuel : ∀ (boxes : BoxesGroups) outer boxes',
  outer ≤ length boxes → 0 < length boxes →
  overlap_outer fuel boxes outer = Some boxes' → 0 < length boxes'.
Proof.
  induction fuel as [|fuel IH]; intros boxes outer boxes' Ho Hpos H; [done|].
  cbn [overlap_outer] in H.
  destruct (decide (outer = length boxes)); [by injection H as <-|].
  destruct (overlap_inner_total (overlap_fuel boxes) boxes outer (S outer))
    as (b1 & E & ? & ?); [lia|lia|unfold overlap_fuel; nia|].
  rewrite E in H. apply IH in H; [done|lia..].
Qed.

Lemma remove_dup_passes (boxes : BoxesGroups) :
  ∃ boxes1, containment_pass boxes = Some boxes1 ∧
            overlap_pass boxes1 = Some (remove_dup boxes).
Proof.
  pose proof (remove_dup_fuel_total boxes) as H. unfold remove_dup_fuel in H.
  destruct (containment_pass boxes) as [b1|]; [|done]. eauto.
Qed.

(** X1: on every vector both loops of [remove_dup] come to their end, and
    no iterator is read at or past [boxes.end()]: the run with fuel yields
    the vector that [remove_dup] stands for. *)
Theorem remove_dup_runs_to_end (boxes : BoxesGroups) :
  remove_dup_fuel boxes = Some (remove_dup boxes) ∧
  length (remove_dup boxes) ≤ length boxes.
Proof.
  destruct (remove_dup_passes boxes) as (b1 & H1 & H2).
  split; [apply remove_dup_fuel_total|].
  apply contain_outer_sublist, sublist_length in H1.
  apply overlap_outer_sublist, sublist_length in H2. lia.
Qed.

(** X2: [remove_dup] only erases: what it leaves is the input with some
    rectangles taken out, the others in their order. *)
Theorem remove_dup_sublist (boxes : BoxesGroups) :
  remove_dup boxes `sublist_of` boxes.
Proof.
  destruct (remove_dup_passes boxes) as (b1 & H1 & H2).
  apply contain_outer_sublist in H1. apply overlap_outer_sublist in H2.
  by etrans.
Qed.

(** X3: [remove_dup] never erases the last rectangle: a vector that is not
    empty is not empty afterwards. *)
Theorem remove_dup_nonempty (boxes : BoxesGroups) :
  boxes ≠ [] → remove_dup boxes ≠ [].
Proof.
  intros Hne. destruct (remove_dup_passes boxes) as (b1 & H1 & H2).
  apply contain_outer_nonempty in H1; [|lia|by destruct boxes; simpl; [|lia]].
  apply overlap_outer_nonempty in H2; [|lia|done].
  destruct (remove_dup boxes); simpl in H2; [lia|done].
Qed.

Lemma remove_dup_nonempty_witness : remove_dup [smallA; bigB; smallC] ≠ [].
Proof. apply remove_dup_nonempty. discriminate. Defined.



(** X5: a rectangle of positive width and height that [remove_dup] leaves
    is not contained in another rectangle that it leaves (both within the
    range of an image). *)
Theorem remove_dup_output_not_nested (boxes : BoxesGroups) (i j : nat) (a b : Rect) :
  i ≠ j → remove_dup boxes !! i = Some a → remove_dup boxes !! j = Some b →
  in_image_range a → in_image_range b →
  (0 < width b)%Z → (0 < height b)%Z →
  contains_rect a b = false.
Proof. apply remove_dup_no_containment. Qed.

Lemma remove_dup_output_not_nested_witness :
  contains_rect smallA farA = false.
Proof.
  apply (remove_dup_output_not_nested [smallA; farA] 0 1);
    [discriminate|reflexivity|reflexivity
    |unfold in_image_range; simpl; lia|unfold in_image_range; simpl; lia
    |simpl; lia|simpl; lia].
Defined.

(** X6: a vector in which no rectangle contains a later or an earlier one
    and no two rectangles overlap is left as it is. *)
Theorem remove_dup_keeps_disjoint (boxes : BoxesGroups) :
  (∀ i j a b, i < j → boxes !! i = Some a → boxes !! j = Some b →
              contains_rect a b = false ∧ contains_rect b a = false) →
  (∀ i j a b, i < j → boxes !! i = Some a → boxes !! j = Some b →
              overlaps b a = false) →
  remove_dup boxes = boxes.
Proof. apply remove_dup_fixed. Qed.

Lemma remove_dup_keeps_disjoint_witness :
  remove_dup [smallA; farA] = [smallA; farA].
Proof.
  apply remove_dup_keeps_disjoint.
  - intros [|[|i]] [|[|j]] a b Hij Ha Hb; try lia; try discriminate.
    injection Ha as <-. injection Hb as <-. split; reflexivity.
  - intros [|[|i]] [|[|j]] a b Hij Ha Hb; try lia; try discriminate.
    injection Ha as <-. injection Hb as <-. reflexivity.
Defined.

(** X7: a second run of [remove_dup] changes nothing when every rectangle
    left by the first run is within the range of an image and has positive
    width and height. *)
Theorem remove_dup_idempotent_positive (boxes : BoxesGroups) :
  (∀ r, r ∈ remove_dup boxes →
        in_image_range r ∧ (0 < width r)%Z ∧ (0 < height r)%Z) →
  remove_dup (remove_dup boxes) = remove_dup boxes.
Proof. apply remove_dup_twice_positive. Qed.

Lemma remove_dup_idempotent_positive_witness :
  remove_dup (remove_dup [tieA; tieB; farA]) = remove_dup [tieA; tieB; farA].
Proof.
  apply remove_dup_idempotent_positive.
  change (remove_dup [tieA; tieB; farA]) with [tieB; farA].
  intros r Hr.
  apply elem_of_cons in Hr as [->|Hr];
    [|apply list_elem_of_singleton in Hr as ->];
    unfold in_image_range; simpl; lia.
Defined.

Lemma remove_dup_pair_overlapping (a b : Rect) :
  in_image_range a → in_image_range b → overlaps b a = true →
  remove_dup [a; b] = [if (area a >? area b)%Z then a else b].
Proof.
  intros Ha Hb Hov. unfold remove_dup, remove_dup_fuel, containment_pass.
  lazy -[overlaps contains_rect area Z.gtb].
  destruct (contains_rect a b) eqn:Eab.
  - apply contains_rect_area_lt in Eab; [|done..].
    lazy -[overlaps contains_rect area Z.gtb].
    destruct (Z.gtb_spec (area a) (area b)); [done|lia].
  - destruct (contains_rect b a) eqn:Eba.
    + apply contains_rect_area_lt in Eba; [|done..].
      lazy -[overlaps contains_rect area Z.gtb].
      destruct (Z.gtb_spec (area a) (area b)); [lia|done].
    + lazy -[overlaps contains_rect area Z.gtb]. rewrite Hov.
      by destruct (area a >? area b)%Z.
Qed.

(** X8: of two overlapping rectangles within the range of an image,
    [remove_dup] leaves exactly one: the first if its area is strictly the
    larger, the second otherwise. *)
Theorem remove_dup_pair_larger_survives (a b : Rect) :
  in_image_range a → in_image_range b → overlaps b a = true →
  remove_dup [a; b] = [if (area a >? area b)%Z then a else b].
Proof. apply remove_dup_pair_overlapping. Qed.

Lemma remove_dup_pair_larger_survives_witness :
  remove_dup [bigB; tieB] = [bigB] ∧ remove_dup [tieB; bigB] = [bigB].
Proof.
  split.
  - apply (remove_dup_pair_larger_survives bigB tieB);
      [unfold in_image_range; simpl; lia..|reflexivity].
  - apply (remove_dup_pair_larger_survives tieB bigB);
      [unfold in_image_range; simpl; lia..|reflexivity].
Defined.

(** X9: when one of two rectangles within the range of an image contains
    the other (both corners), [remove_dup] leaves the containing one,
    whichever comes first and whatever the area of the contained one. *)
Theorem remove_dup_pair_contained (a b : Rect) :
  in_image_range a → in_image_range b → contains_rect a b = true →
  remove_dup [a; b] = [a] ∧ remove_dup [b; a] = [a].
Proof.
  intros Ha Hb Hc.
  assert (Hba : contains_rect b a = false).
  { destruct (contains_rect b a) eqn:E; [|done].
    apply contains_rect_area_lt in E; [|done..].
    apply contains_rect_area_lt in Hc; [|done..]. lia. }
  unfold remove_dup, remove_dup_fuel, containment_pass.
  split; lazy -[overlaps contains_rect area Z.gtb]; rewrite ?Hc, ?Hba; reflexivity.
Qed.

Lemma remove_dup_pair_contained_witness :
  remove_dup [bigB; pointC] = [bigB] ∧ remove_dup [pointC; bigB] = [bigB].
Proof.
  apply remove_dup_pair_contained;
    [unfold in_image_range; simpl; lia..|reflexivity].
Defined.

Lemma inter_self (a : Rect) :
  in_image_range a →
  inter a a = if ((width a <=? 0) || (height a <=? 0))%Z then Rect0 else a.
Proof.
  intros (?&?&?&?&?&?&?). unfold inter.
  rewrite !Z.max_id, !Z.min_id, !(int32_id (_ + _)) by lia.
  replace (x a + width a - x a)%Z with (width a) by lia.
  replace (y a + height a - y a)%Z with (height a) by lia.
  rewrite !int32_id by lia.
  destruct (_ || _); [done|]. by destruct a.
Qed.

Lemma contains_rect_self (a : Rect) : contains_rect a a = false.
Proof.
  unfold contains_rect, contains, br. simpl.
  rewrite (Z.ltb_irrefl (int32 (x a + width a))).
  by rewrite andb_false_r, andb_false_l, andb_false_r.
Qed.

(** X25: of two equal rectangles within the range of an image,
    [remove_dup] leaves one when their width and height are positive; two
    equal rectangles of width or height [0] are both left. *)
Theorem remove_dup_duplicate (a : Rect) :
  in_image_range a →
  remove_dup [a; a] =
  if ((0 <? width a) && (0 <? height a))%Z then [a] else [a; a].
Proof.
  intros Ha. pose proof (inter_self a Ha) as Hi.
  pose proof Ha as (?&?&?&?&?&?&?).
  destruct (Z.ltb_spec 0 (width a)), (Z.ltb_spec 0 (height a)); simpl.
  - assert (Hov : overlaps a a = true).
    { unfold overlaps. rewrite Hi.
      destruct (Z.leb_spec (width a) 0); [lia|].
      destruct (Z.leb_spec (height a) 0); [lia|]. simpl.
      unfold area. rewrite int32_id by nia.
      apply negb_true_iff, Z.eqb_neq. nia. }
    rewrite (remove_dup_pair_overlapping a a Ha Ha Hov).
    by destruct (_ >? _)%Z.
  - apply remove_dup_fixed.
    + intros [|[|i]] [|[|j]] r r' Hij Hr Hr'; try lia; try discriminate.
      injection Hr as <-. injection Hr' as <-.
      by rewrite contains_rect_self.
    + intros [|[|i]] [|[|j]] r r' Hij Hr Hr'; try lia; try discriminate.
      injection Hr as <-. injection Hr' as <-.
      unfold overlaps. rewrite Hi.
      destruct (Z.leb_spec (height a) 0); [|lia].
      by rewrite orb_true_r.
  - apply remove_dup_fixed.
    + intros [|[|i]] [|[|j]] r r' Hij Hr Hr'; try lia; try discriminate.
      injection Hr as <-. injection Hr' as <-.
      by rewrite contains_rect_self.
    + intros [|[|i]] [|[|j]] r r' Hij Hr Hr'; try lia; try discriminate.
      injection Hr as <-. injection Hr' as <-.
      unfold overlaps. rewrite Hi.
      destruct (Z.leb_spec (width a) 0); [|lia]. done.
  - apply remove_dup_fixed.
    + intros [|[|i]] [|[|j]] r r' Hij Hr Hr'; try lia; try discriminate.
      injection Hr as <-. injection Hr' as <-.
      by rewrite contains_rect_self.
    + intros [|[|i]] [|[|j]] r r' Hij Hr Hr'; try lia; try discriminate.
      injection Hr as <-. injection Hr' as <-.
      unfold overlaps. rewrite Hi.
      destruct (Z.leb_spec (width a) 0); [|lia]. done.
Qed.

Lemma remove_dup_duplicate_witness :
  remove_dup [bigB; bigB] = [bigB] ∧
  remove_dup [pointC; pointC] = [pointC; pointC].
Proof.
  split.
  - apply (remove_dup_duplicate bigB). unfold in_image_range. simpl. lia.
  - apply (remove_dup_duplicate pointC). unfold in_image_range. simpl. lia.
Defined.

(** ** [string_processing]: what every output looks like *)

Lemma kept_by_spaces_space (norm1 : string) (idx : nat) :
  kept_by_spaces norm1 idx = true → char_at norm1 idx = " "%char →
  idx ≠ 0 ∧ idx ≠ String.length norm1 - 1 ∧
  char_at norm1 (idx - 1) ≠ " "%char.
Proof.
  unfold kept_by_spaces. intros H E. rewrite E in H. simpl in H.
  rewrite !andb_true_iff, !negb_true_iff in H.
  destruct H as ((H1 & H2) & H3).
  apply Nat.eqb_neq in H1, H2. apply Ascii.eqb_neq in H3. done.
Qed.

Lemma kept_by_filter_char (str : string) (idx : nat) :
  kept_by_filter str idx = true →
  allowed (char_at str idx) = true ∨ char_at str idx = LF.
Proof.
  unfold kept_by_filter. intros H.
  apply orb_true_iff in H as [H|H]; [by left|].
  apply andb_true_iff in H as [H _]. apply Ascii.eqb_eq in H. by right.
Qed.

Lemma select_lookup (keep : nat → bool) (str : string) (k : nat) :
  k < String.length (select keep str) →
  ∃ idx, List.filter keep (seq 0 (String.length str)) !! k = Some idx ∧
         char_at (select keep str) k = char_at str idx ∧
         idx < String.length str ∧ keep idx = true.
Proof.
  intros Hk. rewrite length_select in Hk.
  destruct (lookup_lt_is_Some_2 _ _ Hk) as [idx Hidx].
  exists idx. rewrite char_at_select, Hidx.
  apply filter_seq_lookup in Hidx as H. split; [done|]. split; [done|].
  split; [lia|tauto].
Qed.

(** X10: every character of the output of [string_processing] is one of
    the set of the first test (letters, digits, space, [, . ! ?]) or a line
    feed. *)
Theorem string_processing_alphabet (str : string) (k : nat) :
  k < String.length (string_processing str) →
  allowed (char_at (string_processing str) k) = true ∨
  char_at (string_processing str) k = LF.
Proof.
  unfold string_processing. rewrite remove_extra_spaces_select. intros Hk.
  apply select_lookup in Hk as (a & _ & -> & Ha & _).
  rewrite filter_chars_select in Ha |- *.
  apply select_lookup in Ha as (j & _ & -> & _ & Kj).
  by apply kept_by_filter_char.
Qed.

Lemma string_processing_alphabet_witness :
  allowed (char_at (string_processing raw_mid) 1) = true ∨
  char_at (string_processing raw_mid) 1 = LF.
Proof. apply string_processing_alphabet. vm_compute. lia. Defined.

Lemma string_processing_no_double_space (str : string) (k : nat) :
  ¬ (char_at (string_processing str) k = " "%char ∧
     char_at (string_processing str) (S k) = " "%char).
Proof.
  unfold string_processing. rewrite remove_extra_spaces_select.
  intros [H1 H2].
  apply select_char in H1 as (a & Ha & Ea); [|done].
  apply select_char in H2 as (b & Hb & Eb); [|done].
  destruct (filter_seq_gap _ _ _ _ _ _ Ha Hb) as [Hab Hgap].
  apply filter_seq_lookup in Hb as [_ Kb].
  destruct (kept_by_spaces_space _ b Kb Eb) as (Hb0 & _ & Hprev).
  destruct (decide (b = S a)) as [->|Hne].
  - replace (S a - 1) with a in Hprev by lia. done.
  - apply Hprev. apply not_kept_by_spaces. apply Hgap. lia.
Qed.

Lemma string_processing_no_leading_space (str : string) :
  char_at (string_processing str) 0 ≠ " "%char.
Proof.
  unfold string_processing. rewrite remove_extra_spaces_select.
  intros H. apply select_char in H as (a & Ha & Ea); [|done].
  pose proof (filter_seq_head _ _ _ _ Ha) as Hhead.
  apply filter_seq_lookup in Ha as [_ Ka].
  destruct (kept_by_spaces_space _ a Ka Ea) as (Ha0 & _ & Hprev).
  apply Hprev. apply not_kept_by_spaces. apply Hhead. lia.
Qed.

(** X11: the output of [string_processing] never has two spaces side by
    side, and never begins with a space. *)
Theorem string_processing_spaces (str : string) :
  (∀ k, ¬ (char_at (string_processing str) k = " "%char ∧
           char_at (string_processing str) (S k) = " "%char)) ∧
  char_at (string_processing str) 0 ≠ " "%char.
Proof.
  split.
  - apply string_processing_no_double_space.
  - apply string_processing_no_leading_space.
Qed.

Lemma length_filter_seq (keep : nat → bool) (n : nat) :
  length (List.filter keep (seq 0 n)) ≤ n.
Proof.
  assert (H : ∀ l, length (List.filter keep l) ≤ length l).
  { induction l as [|i l IH]; simpl; [lia|]. destruct (keep i); simpl; lia. }
  specialize (H (seq 0 n)). by rewrite length_seq in H.
Qed.

(** X12: [string_processing] only removes characters: its output is never
    longer than its input. *)
Theorem string_processing_length (str : string) :
  String.length (string_processing str) ≤ String.length str.
Proof.
  unfold string_processing.
  rewrite remove_extra_spaces_select, length_select.
  etrans; [apply length_filter_seq|].
  rewrite filter_chars_select, length_select. apply length_filter_seq.
Qed.

Lemma filter_seq_none (keep : nat → bool) (n : nat) :
  (∀ idx, idx < n → keep idx = false) → List.filter keep (seq 0 n) = [].
Proof.
  intros H. destruct (List.filter keep (seq 0 n)) as [|a l] eqn:E; [done|].
  assert (Ha : List.filter keep (seq 0 n) !! 0 = Some a) by (by rewrite E).
  apply filter_seq_lookup in Ha as [Ha Ka]. rewrite H in Ka by lia. done.
Qed.

Lemma filter_seq_all (keep : nat → bool) (n : nat) :
  (∀ idx, idx < n → keep idx = true) → List.filter keep (seq 0 n) = seq 0 n.
Proof.
  intros H. apply forallb_filter_id, forallb_forall.
  intros idx Hin. apply in_seq in Hin. apply H. lia.
Qed.

Lemma char_at_cons (c : ascii) (str : string) (idx : nat) :
  char_at (String c str) (S idx) = char_at str idx.
Proof. reflexivity. Qed.

Lemma chars_of_string (str : string) :
  String.string_of_list_ascii (char_at str <$> seq 0 (String.length str)) = str.
Proof.
  induction str as [|c str IH]; [done|].
  cbn [String.length seq fmap list_fmap String.string_of_list_ascii].
  f_equal. rewrite <- fmap_S_seq, <- list_fmap_compose.
  rewrite <- IH at 3. f_equal.
Qed.

Lemma select_all (keep : nat → bool) (str : string) :
  (∀ idx, idx < String.length str → keep idx = true) → select keep str = str.
Proof.
  intros H. unfold select. rewrite filter_seq_all by done.
  apply chars_of_string.
Qed.

(** X13: a text in which no character is in the allowed set and none is a
    line feed is filtered to the empty string. *)
Theorem string_processing_all_removed (str : string) :
  (∀ idx, idx < String.length str →
          allowed (char_at str idx) = false ∧ char_at str idx ≠ LF) →
  string_processing str = "".
Proof.
  intros H. unfold string_processing.
  rewrite filter_chars_select. unfold select.
  rewrite filter_seq_none; [done|].
  intros idx Hidx. destruct (H idx Hidx) as [Ha Hl].
  unfold kept_by_filter. rewrite Ha. simpl.
  apply Ascii.eqb_neq in Hl. by rewrite Hl.
Qed.

Lemma string_processing_all_removed_witness :
  string_processing "#@%" = "".
Proof.
  apply string_processing_all_removed. intros idx Hidx. simpl in Hidx.
  do 3 (destruct idx as [|idx]; [split; [reflexivity|discriminate]|]). lia.
Defined.

(** X14: a text made of allowed characters only, in which every space is
    neither first nor last and has no space right before it, is returned as
    it is. *)
Theorem string_processing_unchanged (str : string) :
  (∀ idx, idx < String.length str →
          allowed (char_at str idx) = true ∧
          (char_at str idx = " "%char →
           idx ≠ 0 ∧ idx ≠ String.length str - 1 ∧
           char_at str (idx - 1) ≠ " "%char)) →
  string_processing str = str.
Proof.
  intros H. unfold string_processing.
  assert (E : filter_chars str = str).
  { rewrite filter_chars_select. apply select_all. intros idx Hidx.
    unfold kept_by_filter. by rewrite (proj1 (H idx Hidx)). }
  rewrite E, remove_extra_spaces_select. apply select_all.
  intros idx Hidx. unfold kept_by_spaces.
  destruct (Ascii.eqb_spec (char_at str idx) " ") as [Esp|]; [|done].
  destruct (proj2 (H idx Hidx) Esp) as (H1 & H2 & H3).
  apply Nat.eqb_neq in H1, H2. apply Ascii.eqb_neq in H3.
  by rewrite H1, H2, H3.
Qed.

Lemma string_processing_unchanged_witness :
  string_processing "Hi, you" = "Hi, you".
Proof.
  apply string_processing_unchanged. intros idx Hidx. simpl in Hidx.
  do 7 (destruct idx as [|idx];
        [split; [reflexivity|intros E; first [discriminate E|vm_compute; repeat split; discriminate]]|]).
  lia.
Defined.

(** ** [normalize_result]: the words it keeps *)

Lemma size_t_sub_le (a b : nat) : b ≤ a → N.to_nat (size_t_sub a b) ≤ a - b.
Proof.
  intros H. unfold size_t_sub.
  replace (N.of_nat a + 18446744073709551616 - N.of_nat b)%N
    with (N.of_nat (a - b) + 1 * 18446744073709551616)%N by lia.
  rewrite N.Div0.mod_add.
  pose proof (N.Div0.mod_le (N.of_nat (a - b)) 18446744073709551616). lia.
Qed.

Lemma find_first (str : string) (ch : ascii) : ∀ pos,
  (∀ e, find str ch pos = Some e →
        ∀ idx, pos ≤ idx < e → char_at str idx ≠ ch) ∧
  (find str ch pos = None →
   ∀ idx, pos ≤ idx < String.length str → char_at str idx ≠ ch).
Proof.
  induction str as [|c rest IH]; intros pos.
  { split; [done|]. simpl. intros _ idx Hidx. lia. }
  destruct pos as [|pos]; simpl.
  - destruct (Ascii.eqb_spec c ch) as [->|Hc].
    + split; [|done]. intros e [= <-] idx Hidx. lia.
    + destruct (IH 0) as [IHs IHn].
      destruct (find rest ch 0) as [e'|]; simpl; split; try done.
      * intros e [= <-] [|idx] Hidx; [done|].
        rewrite char_at_cons. apply (IHs e' eq_refl). lia.
      * intros _ [|idx] Hidx; [done|].
        rewrite char_at_cons. apply (IHn eq_refl). lia.
  - destruct (IH pos) as [IHs IHn].
    destruct (find rest ch pos) as [e'|]; simpl; split; try done.
    + intros e [= <-] [|idx] Hidx; [lia|].
      rewrite char_at_cons. apply (IHs e' eq_refl). lia.
    + intros _ [|idx] Hidx; [lia|].
      rewrite char_at_cons. apply (IHn eq_refl). lia.
Qed.

Lemma char_at_substring (str : string) (n m k : nat) :
  char_at (String.substring n m str) k =
  if decide (k < m) then char_at str (k + n) else "000"%char.
Proof.
  unfold char_at. destruct (decide (k < m)).
  - by rewrite String.substring_correct1.
  - by rewrite String.substring_correct2 by lia.
Qed.

(** The word cut out at [start] holds no space. *)
Lemma token_no_space (str : string) (start : nat) (tmp : string) :
  substr str start
    (size_t_sub (default (String.length str) (find str " " start)) start)
  = Ret tmp →
  ∀ k, char_at tmp k ≠ " "%char.
Proof.
  unfold substr. intros H k.
  destruct (decide (start ≤ String.length str)) as [Hs|]; [|done].
  injection H as <-. rewrite char_at_substring.
  destruct (decide (k < _)) as [Hk|]; [|done].
  destruct (find_first str " " start) as [Hsome Hnone].
  destruct (find str " " start) as [e|] eqn:E; simpl in Hk.
  - apply find_bounds in E as Hb.
    pose proof (size_t_sub_le e start ltac:(lia)).
    apply (Hsome e eq_refl). lia.
  - apply (Hnone eq_refl). lia.
Qed.

Lemma split_words_invariant fuel : ∀ str words start words',
  NoDup words → (∀ w, w ∈ words → ∀ k, char_at w k ≠ " "%char) →
  split_words fuel str words start = Ret words' →
  NoDup words' ∧ (∀ w, w ∈ words' → ∀ k, char_at w k ≠ " "%char) ∧
  words' ≠ [].
Proof.
  induction fuel as [|fuel IH]; intros str words start words' Hnd Hsp H; [done|].
  cbn [split_words] in H.
  destruct (substr str start _) as [tmp| |] eqn:E; [|done..].
  cbn [res_bind] in H. pose proof (token_no_space _ _ _ E) as Htmp. clear E.
  set (words1 := if bool_decide (tmp ∈ words) then words
                 else (words ++ [tmp])%list) in H.
  assert (H1 : NoDup words1 ∧
               (∀ w, w ∈ words1 → ∀ k, char_at w k ≠ " "%char) ∧
               words1 ≠ []).
  { unfold words1. case_bool_decide as Hin.
    - split; [done|]. split; [done|]. intros ->. by apply elem_of_nil in Hin.
    - split; [|split].
      + apply NoDup_app. split; [done|]. split; [|apply NoDup_singleton].
        intros x Hx Hx'. apply list_elem_of_singleton in Hx' as ->. done.
      + intros w Hw. apply elem_of_app in Hw as [Hw|Hw]; [by apply Hsp|].
        by apply list_elem_of_singleton in Hw as ->.
      + by destruct words. }
  destruct H1 as (Hnd1 & Hsp1 & Hne1).
  destruct (decide (_ < _)); [by eapply IH|]. by injection H as <-.
Qed.

(** X15: whatever the fragments, [normalize_result] returns a string: its
    loop ends and neither call of [substr] is out of range. *)
Theorem normalize_result_no_exception (text : list string) :
  ∃ str, normalize_result text = Ret str.
Proof. apply normalize_result_returns. Qed.

(** X16: the words that the loop of [normalize_result] keeps are pairwise
    different, none of them holds a space, and there is at least one (the
    empty word when the text holds nothing else); the result is cut out of
    these words joined with a space after each. *)
Theorem normalize_result_words (text : list string) :
  ∃ words,
    split_words (S (String.length (append_all text))) (append_all text) [] 0
    = Ret words ∧
    NoDup words ∧ (∀ w, w ∈ words → ∀ k, char_at w k ≠ " "%char) ∧
    words ≠ [] ∧
    normalize_result text =
    substr (append_all words) 0
           (size_t_sub (String.length (append_all words)) 2).
Proof.
  destruct (split_words_returns (S (String.length (append_all text)))
              (append_all text) [] 0) as [words E]; [lia..|].
  exists words. split; [done|].
  destruct (split_words_invariant _ _ _ _ _ (NoDup_nil_2)
              ltac:(by intros w Hw%elem_of_nil) E) as (H1 & H2 & H3).
  repeat split; try done.
  unfold normalize_result. by rewrite E.
Qed.

Lemma normalize_result_words_witness :
  ∃ words, NoDup words ∧ words ≠ [] ∧
           normalize_result ["to be or not to be"] =
           substr (append_all words) 0
                  (size_t_sub (String.length (append_all words)) 2).
Proof.
  destruct (normalize_result_words ["to be or not to be"])
    as (words & _ & Hnd & _ & Hne & E).
  exists words. split; [exact Hnd|]. split; [exact Hne|exact E].
Defined.

Lemma string_length_app (s1 s2 : string) :
  String.length (s1 +:+ s2) = String.length s1 + String.length s2.
Proof.
  induction s1 as [|c s1 IH]; [done|].
  rewrite string_app_cons. simpl. by rewrite IH.
Qed.

Lemma find_after_word (w rest : string) (ch : ascii) :
  (∀ k, k < String.length w → char_at w k ≠ ch) →
  find (w +:+ String ch rest) ch 0 = Some (String.length w).
Proof.
  induction w as [|c w IH]; intros H.
  - simpl. by rewrite Ascii.eqb_refl.
  - rewrite string_app_cons. simpl.
    destruct (Ascii.eqb_spec c ch) as [->|_].
    + exfalso. apply (H 0); [simpl; lia|done].
    + rewrite IH; [done|]. intros k Hk. apply (H (S k)). simpl. lia.
Qed.

Lemma substring_prefix_app (w rest : string) : ∀ m,
  m ≤ String.length w →
  String.substring 0 m (w +:+ rest) = String.substring 0 m w.
Proof.
  induction w as [|c w IH]; intros m Hm.
  - simpl in Hm. assert (m = 0) as -> by lia. by destruct rest.
  - rewrite string_app_cons. destruct m as [|m]; [done|].
    simpl. rewrite IH; [done|]. simpl in Hm. lia.
Qed.

Lemma substring_whole (w : string) :
  String.substring 0 (String.length w) w = w.
Proof. induction w as [|c w IH]; [done|]. simpl. by rewrite IH. Qed.

(** X17: given one word, with no space in it, [normalize_result] returns
    the word without its last character: the two characters that
    [substr(0, length - 2)] cuts are the space appended after the word and
    the last character of the word. *)
Theorem normalize_result_single_word (w : string) :
  (∀ k, char_at w k ≠ " "%char) → 0 < String.length w →
  (N.of_nat (String.length w) < 18446744073709551615)%N →
  normalize_result [w] =
  Ret (String.substring 0 (String.length w - 1) w).
Proof.
  intros Hsp Hlen Hmax. unfold normalize_result.
  assert (Hstr : append_all [w] = w +:+ " ") by done.
  rewrite Hstr. cbn [split_words].
  rewrite find_after_word by (intros; apply Hsp).
  cbn [default from_option id]. unfold substr at 1.
  destruct (decide (0 ≤ String.length (w +:+ " "))) as [_|?]; [|lia].
  cbn [res_bind].
  assert (Hcount : N.to_nat
            (N.min (size_t_sub (String.length w) 0)
                   (N.of_nat (String.length (w +:+ " ") - 0)))
          = String.length w).
  { unfold size_t_sub. rewrite string_length_app. simpl.
    replace (N.of_nat (String.length w) + 18446744073709551616 - N.of_nat 0)%N
      with (N.of_nat (String.length w) + 1 * 18446744073709551616)%N by lia.
    rewrite N.Div0.mod_add, N.mod_small by lia. lia. }
  rewrite Hcount, substring_prefix_app, substring_whole by lia.
  rewrite bool_decide_eq_false_2 by apply not_elem_of_nil.
  destruct (decide (String.length w + 1 < String.length (w +:+ " ")))
    as [Hlt|_].
  { rewrite string_length_app in Hlt. simpl in Hlt. lia. }
  cbn [app res_bind]. rewrite Hstr. unfold substr.
  destruct (decide (0 ≤ String.length (w +:+ " "))) as [_|?]; [|lia].
  f_equal.
  assert (Hcut : N.to_nat
            (N.min (size_t_sub (String.length (w +:+ " ")) 2)
                   (N.of_nat (String.length (w +:+ " ") - 0)))
          = String.length w - 1).
  { unfold size_t_sub. rewrite string_length_app. simpl.
    replace (N.of_nat (String.length w + 1) + 18446744073709551616
             - N.of_nat 2)%N
      with (N.of_nat (String.length w - 1) + 1 * 18446744073709551616)%N
      by lia.
    rewrite N.Div0.mod_add, N.mod_small by lia. lia. }
  rewrite Hcut. apply substring_prefix_app. lia.
Qed.

Lemma normalize_result_single_word_witness :
  normalize_result ["bird"] = Ret "bir".
Proof.
  apply (normalize_result_single_word "bird"); [|simpl; lia|simpl; lia].
  intros k. do 4 (destruct k as [|k]; [discriminate|]). discriminate.
Defined.

(** ** [alphabet_analisis]: the text put together *)

Lemma append_all_from (text : list string) : ∀ str,
  foldl (fun str s => str +:+ s +:+ " ") str text = str +:+ append_all text.
Proof.
  unfold append_all. induction text as [|s text IH]; intros str; simpl.
  - by rewrite string_app_empty_r.
  - rewrite IH, (IH ("" +:+ s +:+ " ")). by rewrite !string_app_assoc.
Qed.

Lemma append_all_cons (s : string) (text : list string) :
  append_all (s :: text) = s +:+ " " +:+ append_all text.
Proof.
  unfold append_all at 1. simpl. rewrite append_all_from.
  change ("" +:+ s +:+ " ") with (s +:+ " "). by rewrite string_app_assoc.
Qed.

Lemma append_all_snoc (text : list string) (s : string) :
  append_all (text ++ [s]) = append_all text +:+ s +:+ " ".
Proof.
  unfold append_all. by rewrite foldl_app.
Qed.

Lemma char_at_app_l (s1 s2 : string) : ∀ k,
  k < String.length s1 → char_at (s1 +:+ s2) k = char_at s1 k.
Proof.
  induction s1 as [|c s1 IH]; intros k Hk; simpl in Hk; [lia|].
  rewrite string_app_cons. destruct k as [|k]; [done|].
  rewrite !char_at_cons. apply IH. lia.
Qed.

Lemma char_at_app_r (s1 s2 : string) (k : nat) :
  char_at (s1 +:+ s2) (String.length s1 + k) = char_at s2 k.
Proof.
  induction s1 as [|c s1 IH]; [done|].
  rewrite string_app_cons. simpl. by rewrite char_at_cons.
Qed.

Section Recognition.

Context {Mat : Type}.
Variable ocr_Recognize : Mat → option string.

Lemma rec_text_collected (areas : list Mat) : ∀ rec_text : list string,
  foldl (fun rec_text area =>
           match ocr_Recognize area with
           | Some raw =>
               let res := string_processing raw in
               if decide (res = "") then rec_text
               else (rec_text ++ [res])%list
           | None => rec_text
           end) rec_text areas
  = (rec_text ++
     filter (fun s => s ≠ "") (string_processing <$> omap ocr_Recognize areas))%list.
Proof.
  induction areas as [|area areas IH]; intros rec_text; simpl.
  - by rewrite app_nil_r.
  - rewrite IH. destruct (ocr_Recognize area) as [raw|]; simpl; [|done].
    rewrite filter_cons. destruct (decide (string_processing raw = "")).
    + by rewrite decide_False by tauto.
    + rewrite decide_True by done. by rewrite <- app_assoc.
Qed.

(** X18: when the recognizer initialises, the text of [alphabet_analisis]
    is made of the filtered texts of the areas, in order, each followed by
    one space; an area on which recognition fails, or whose filtered text is
    empty, adds nothing.  When it does not initialise, the exception is
    raised whatever the areas. *)
Theorem alphabet_analisis_collects (areas : list Mat) :
  alphabet_analisis false ocr_Recognize areas =
  Ret (append_all
         (filter (fun s => s ≠ "")
                 (string_processing <$> omap ocr_Recognize areas))) ∧
  alphabet_analisis true ocr_Recognize areas =
  Throw (RecException "could not initialize tesseract ocr").
Proof.
  split; [|done]. unfold alphabet_analisis. by rewrite rec_text_collected.
Qed.

Lemma alphabet_analisis_shape (ocr_Init_failed : bool) (areas : list Mat)
    (str : string) :
  alphabet_analisis ocr_Init_failed ocr_Recognize areas = Ret str →
  str = "" ∨
  (char_at str 0 ≠ " "%char ∧
   char_at str (String.length str - 1) = " "%char).
Proof.
  unfold alphabet_analisis. destruct ocr_Init_failed; [done|].
  rewrite rec_text_collected. intros [= <-]. simpl.
  set (texts := filter _ _).
  assert (Htexts : ∀ s, s ∈ texts →
            s ≠ "" ∧ char_at s 0 ≠ " "%char).
  { intros s Hs. apply list_elem_of_filter in Hs as [Hne Hs].
    apply list_elem_of_fmap in Hs as (raw & -> & _).
    split; [done|]. apply string_processing_no_leading_space. }
  clearbody texts. destruct texts as [|s texts]; [by left|]. right. split.
  - rewrite append_all_cons.
    destruct (Htexts s) as [Hne Hsp]; [left|].
    rewrite char_at_app_l; [done|]. destruct s; [done|simpl; lia].
  - destruct (@exists_last _ (s :: texts)) as (texts' & t & ->); [done|].
    rewrite append_all_snoc, <- string_app_assoc.
    rewrite string_length_app. simpl.
    replace (String.length (append_all texts' +:+ t) + 1 - 1)
      with (String.length (append_all texts' +:+ t) + 0) by lia.
    by rewrite char_at_app_r.
Qed.

(** X19: the text returned by [alphabet_analisis] is empty, or ends with
    the space that follows the last piece and does not begin with a
    space. *)
Theorem alphabet_analisis_ends_with_space (ocr_Init_failed : bool)
    (areas : list Mat) (str : string) :
  alphabet_analisis ocr_Init_failed ocr_Recognize areas = Ret str →
  str = "" ∨
  (char_at str 0 ≠ " "%char ∧
   char_at str (String.length str - 1) = " "%char).
Proof. apply alphabet_analisis_shape. Qed.

End Recognition.

Lemma alphabet_analisis_ends_with_space_witness :
  alphabet_analisis false reads_gray [Decoded 1 1; Gray (Decoded 2 2)]
  = Ret "Hi, you " ∧
  ("Hi, you " = "" ∨
   (char_at "Hi, you " 0 ≠ " "%char ∧
    char_at "Hi, you " (String.length "Hi, you " - 1) = " "%char)).
Proof.
  assert (H : alphabet_analisis false reads_gray
                [Decoded 1 1; Gray (Decoded 2 2)] = Ret "Hi, you ")
    by reflexivity.
  split; [exact H|].
  exact (alphabet_analisis_ends_with_space reads_gray false _ _ H).
Defined.

(** ** [create_text_areas]: the sum and the number of regions *)

Lemma sum_area_from (boxes : BoxesGroups) : ∀ sum : Z,
  (∀ r, r ∈ boxes → in_image_range r) →
  (0 ≤ sum)%Z → (sum + total_area boxes < 2147483648)%Z →
  foldl (fun sum r => int32 (sum + area r)) sum boxes
  = (sum + total_area boxes)%Z ∧ (0 ≤ total_area boxes)%Z.
Proof.
  induction boxes as [|r boxes IH]; intros sum Hr Hs Hfit; simpl in *.
  - split; lia.
  - assert (Hr0 : in_image_range r) by (apply Hr; left).
    rewrite area_in_range by done.
    destruct Hr0 as (?&?&?&?&?&?&?).
    assert (Htail : ∀ r', r' ∈ boxes → in_image_range r')
      by (intros; apply Hr; by right).
    assert (Hpos : (0 ≤ total_area boxes)%Z).
    { clear -Htail. induction boxes as [|r' boxes IH]; simpl; [lia|].
      destruct (Htail r') as (?&?&?&?&?&?&?); [left|].
      assert (0 ≤ total_area boxes)%Z by (apply IH; intros; apply Htail; by right).
      nia. }
    rewrite int32_id by nia.
    destruct (IH (sum + width r * height r)%Z Htail) as [-> _]; [nia|lia|].
    split; nia.
Qed.

(** X20: when every rectangle is within the range of an image and the
    areas add up to less than [2^31], the [int] sum of [create_text_areas]
    is the true sum of the areas: nothing wraps. *)
Theorem sum_area_exact (boxes : BoxesGroups) :
  (∀ r, r ∈ boxes → in_image_range r) →
  (total_area boxes < 2147483648)%Z →
  sum_area boxes = total_area boxes ∧ (0 ≤ sum_area boxes)%Z.
Proof.
  intros Hr Hfit. unfold sum_area.
  destruct (sum_area_from boxes 0%Z Hr) as [E Hpos]; [lia|lia|].
  rewrite E. lia.
Qed.

Lemma sum_area_exact_witness :
  sum_area [bigB; tieA; farA] = 113%Z ∧ (0 ≤ sum_area [bigB; tieA; farA])%Z.
Proof.
  apply (sum_area_exact [bigB; tieA; farA]); [|vm_compute; reflexivity].
  intros r Hr. repeat (apply elem_of_cons in Hr as [->|Hr]);
    [..|by apply elem_of_nil in Hr]; unfold in_image_range; simpl; lia.
Defined.

Section Regions.

Context {Mat : Type}.
Variable empty : Mat → bool.
Variable size_area : Mat → Z.
Variable cvtColor_RGB2GRAY : Mat → Mat.
Variable roi : Mat → Rect → Mat.
Variable threshold_OTSU : Mat → Mat.
Variable find_text_rects : Mat → res BoxesGroups.
Variable ocr_Recognize : Mat → option string.

Lemma create_text_areas_count (image : Mat) (boxes : BoxesGroups) :
  length (create_text_areas size_area cvtColor_RGB2GRAY roi threshold_OTSU
            image boxes) = 1 ∨
  length (create_text_areas size_area cvtColor_RGB2GRAY roi threshold_OTSU
            image boxes) = length boxes.
Proof.
  unfold create_text_areas. destruct (_ >=? _)%Z; [by left|].
  right. apply length_fmap.
Qed.

(** X21: [create_text_areas] makes one region or one region per rectangle;
    after [remove_dup] on a vector that is not empty there is at least one
    region for the recognizer, and never more than there were
    rectangles. *)
Theorem create_text_areas_after_remove_dup (image : Mat) (boxes : BoxesGroups) :
  boxes ≠ [] →
  0 < length (create_text_areas size_area cvtColor_RGB2GRAY roi
                threshold_OTSU image (remove_dup boxes)) ≤ length boxes.
Proof.
  intros Hne.
  assert (H1 : 0 < length (remove_dup boxes)).
  { destruct (remove_dup_passes boxes) as (b1 & H1 & H2).
    apply contain_outer_nonempty in H1;
      [|lia|by destruct boxes; simpl; [|lia]].
    apply overlap_outer_nonempty in H2; [done|lia|done]. }
  assert (H2 : length (remove_dup boxes) ≤ length boxes).
  { destruct (remove_dup_passes boxes) as (b1 & Hc & Ho).
    apply contain_outer_sublist, sublist_length in Hc.
    apply overlap_outer_sublist, sublist_length in Ho. lia. }
  destruct (create_text_areas_count image (remove_dup boxes)) as [->| ->]; lia.
Qed.


(** X23: when the image is not empty, the detector finds rectangles and the
    recognizer initialises, [get_text] goes through the four stages and
    returns the text of [alphabet_analisis] on the regions of the
    deduplicated rectangles; this text is empty, or ends with a space and
    does not begin with one. *)
Theorem get_text_full_run (image : Mat) (boxes : BoxesGroups) :
  empty image = false → find_text_rects image = Ret boxes → boxes ≠ [] →
  ∃ str,
    get_text_image empty size_area cvtColor_RGB2GRAY roi threshold_OTSU
      find_text_rects false ocr_Recognize image
    = ([FindTextRects; RemoveDup; CreateTextAreas; AlphabetAnalisis], Ret str) ∧
    alphabet_analisis false ocr_Recognize
      (create_text_areas size_area cvtColor_RGB2GRAY roi threshold_OTSU
         image (remove_dup boxes)) = Ret str ∧
    (str = "" ∨
     (char_at str 0 ≠ " "%char ∧
      char_at str (String.length str - 1) = " "%char)).
Proof.
  intros He Hd Hne.
  destruct (alphabet_analisis false ocr_Recognize
              (create_text_areas size_area cvtColor_RGB2GRAY roi
                 threshold_OTSU image (remove_dup boxes)))
    as [str| |] eqn:E; [|done..].
  exists str. split; [|split; [done|]].
  - unfold get_text_image. rewrite He, Hd.
    cbv beta iota delta [traced_bind enter].
    destruct (decide (length boxes = 0)) as [E0|_]; [by destruct boxes|].
    by rewrite E.
  - by eapply alphabet_analisis_shape.
Qed.

End Regions.

Lemma create_text_areas_after_remove_dup_witness :
  0 < length (create_text_areas sym_size_area Gray Roi Otsu (Decoded 9 9)
                (remove_dup [smallA; bigB; smallC])) ≤ 3.
Proof.
  apply (create_text_areas_after_remove_dup sym_size_area Gray Roi Otsu
           (Decoded 9 9) [smallA; bigB; smallC]).
  discriminate.
Defined.


Lemma get_text_full_run_witness :
  ∃ str,
    get_text_image sym_empty sym_size_area Gray Roi Otsu
      two_rects false reads_gray (Decoded 3 3)
    = ([FindTextRects; RemoveDup; CreateTextAreas; AlphabetAnalisis], Ret str) ∧
    alphabet_analisis false reads_gray
      (create_text_areas sym_size_area Gray Roi Otsu (Decoded 3 3)
         (remove_dup [mkRect 0 0 2 2; mkRect 5 5 1 1])) = Ret str ∧
    (str = "" ∨
     (char_at str 0 ≠ " "%char ∧
      char_at str (String.length str - 1) = " "%char)).
Proof.
  apply (get_text_full_run sym_empty sym_size_area Gray Roi Otsu
           two_rects reads_gray (Decoded 3 3) [mkRect 0 0 2 2; mkRect 5 5 1 1]);
    [reflexivity|reflexivity|discriminate].
Defined.

(** ** [find_text_rects]: the inverted channels *)

Section InvertedChannels.

Context {Mat : Type}.
Variable invert : Mat → Mat.

Lemma push_inverted_run (orig : list Mat) : ∀ n c,
  c + n ≤ length orig →
  push_inverted invert n c (orig ++ (invert <$> take c orig))%list
  = Some (orig ++ (invert <$> take (c + n) orig))%list.
Proof.
  induction n as [|n IH]; intros c Hc; simpl.
  - by rewrite Nat.add_0_r.
  - destruct (lookup_lt_is_Some_2 orig c) as [m Hm]; [lia|].
    rewrite lookup_app_l by lia. rewrite Hm.
    rewrite <- app_assoc.
    replace ((invert <$> take c orig) ++ [invert m])%list
      with (invert <$> take (S c) orig).
    + rewrite IH by lia. by replace (S c + n) with (c + S n) by lia.
    + erewrite take_S_r by done. by rewrite fmap_app.
Qed.

(** X24: from [cn >= 1] channels the loop of [find_text_rects] makes
    [2 * cn - 1]: the channels themselves, then the inverses of all of them
    but the last, in order.  With no channel at all the bound [cn - 1]
    wraps and the first iteration reads [channels[0]] of an empty
    vector. *)
Theorem add_inverted_channels_spec (channels : list Mat) :
  add_inverted_channels invert [] = None ∧
  (channels ≠ [] → (N.of_nat (length channels) < 18446744073709551616)%N →
   add_inverted_channels invert channels
   = Some (channels ++ (invert <$> take (length channels - 1) channels))%list ∧
   ∀ channels', add_inverted_channels invert channels = Some channels' →
                length channels' = 2 * length channels - 1).
Proof.
  split.
  - unfold add_inverted_channels.
    assert (E : size_t_sub (length (@nil Mat)) 1 = 18446744073709551615%N)
      by reflexivity.
    rewrite E. destruct (N.to_nat 18446744073709551615) as [|n] eqn:En.
    + apply (f_equal N.of_nat) in En. rewrite N2Nat.id in En. discriminate En.
    + reflexivity.
  - intros Hne Hmax.
    assert (Hlen : 0 < length channels) by (destruct channels; simpl; [done|lia]).
    assert (E : add_inverted_channels invert channels
                = Some (channels ++ (invert <$> take (length channels - 1) channels))%list).
    { unfold add_inverted_channels.
      assert (En : N.to_nat (size_t_sub (length channels) 1)
                   = length channels - 1).
      { unfold size_t_sub.
        replace (N.of_nat (length channels) + 18446744073709551616
                 - N.of_nat 1)%N
          with (N.of_nat (length channels - 1) + 1 * 18446744073709551616)%N
          by lia.
        rewrite N.Div0.mod_add, N.mod_small by lia. lia. }
      rewrite En.
      pose proof (push_inverted_run channels (length channels - 1) 0) as H.
      simpl in H. rewrite app_nil_r in H. apply H. lia. }
    split; [done|]. intros channels' E'. rewrite E in E'.
    injection E' as <-.
    rewrite length_app, length_fmap, length_take. lia.
Qed.

End InvertedChannels.

Lemma add_inverted_channels_spec_witness :
  add_inverted_channels (fun m => 255 - m)%Z [10; 20; 30; 40; 50]%Z
  = Some [10; 20; 30; 40; 50; 245; 235; 225; 215]%Z.
Proof.
  destruct (add_inverted_channels_spec (fun m => 255 - m)%Z
              [10; 20; 30; 40; 50]%Z) as [_ H].
  destruct H as [H _]; [discriminate|simpl; lia|]. exact H.
Defined.
